(** * BuildPipe: the sequential build-task orchestrator

    A shallow embedding of [src/extensions/builder/build-pipe.ts] and a
    verification of its specification.  The orchestrator is a class with
    two mutable fields ([failedTasks], [failedDependencyTask]) whose
    methods await user-supplied hooks in sequence and may throw; it is
    modelled in a state-and-exception monad over the state of one
    [BuildPipe] instance.  The state also carries the outside world the
    hooks act on and a ghost trace of every call that leaves the
    orchestrator (logger, hooks, artifact factory). *)

From Stdlib Require Import ZArith Ascii String List.
From stdpp Require Import base option list strings gmap sorting.

Open Scope string_scope.

(** ** Values shared by every instance *)

(** A thrown JavaScript [Error], identified by its message. *)
Inductive Exn : Type :=
  | Error (message : string).

(** What [BuildTaskHelper.deserializeId] returns and
    [BuildTaskHelper.serializeId] reads: the owning aspect id and the
    task name.  A JavaScript string-valued property may be [undefined]. *)
Record TaskId : Type := mkTaskId {
  aspectId : string;
  name : option string;
}.

(** [EnvDefinition]: only its [id] is read by the orchestrator. *)
Record EnvDefinition : Type := mkEnv {
  env_id : string;
}.

(** [ComponentResult] of [./types]: the component it is about and the
    optional [errors] array ([c.errors?.length] in the source). *)
Record ComponentResult : Type := mkComponentResult {
  component : string;
  errors : option (list string);
}.

(** JavaScript truthiness of an optional string: defined and not empty. *)
Definition truthy (s : option string) : bool :=
  match s with
  | Some s => negb (String.eqb s "")
  | None => false
  end.

(** The callback of [componentsResults.filter]: [c.errors?.length]. *)
Definition hasErrors (c : ComponentResult) : bool :=
  match errors c with
  | Some es => negb (Nat.eqb (length es) 0)
  | None => false
  end.

(** [compact] of ramda-adjunct on an array of objects and [null]s. *)
Fixpoint compact {A : Type} (l : list (option A)) : list A :=
  match l with
  | [] => []
  | Some a :: l' => a :: compact l'
  | None :: l' => compact l'
  end.

(** A [null] in the array [mapSeries] resolves to. *)
Definition isNull {A : Type} (o : option A) : bool :=
  match o with Some _ => false | None => true end.

Section BuildPipe.

(** The outside world the hooks read and change. *)
Context {W : Type}.
(** [BuildContext], an artifact definition, the [ComponentMap<ArtifactList>]
    the factory returns, and the code of a [postBuild] hook. *)
Context {BuildContext ArtifactDefinition Artifacts PostBuildHook : Type}.

(** A call that is awaited: it reads and changes the world and either
    resolves or rejects. *)
Definition Async (A : Type) : Type := W -> (Exn + A) * W.

(** The value a task's [execute] resolves to. *)
Record BuiltTaskResult : Type := mkBuiltTaskResult {
  btr_componentsResults : list ComponentResult;
  btr_artifacts : option (list ArtifactDefinition);
}.

(** [BuildTask].  [postBuild] receives the results list, which holds
    tasks again; the hook is therefore kept as its code, run by
    [callPostBuild] below. *)
Record BuildTask : Type := mkBuildTask {
  task_aspectId : string;
  task_name : option string;
  description : option string;
  dependencies : option (list string);
  preBuild : option (BuildContext -> Async unit);
  execute_hook : BuildContext -> Async BuiltTaskResult;
  postBuild : option PostBuildHook;
}.

Definition task_id (t : BuildTask) : TaskId :=
  {| aspectId := task_aspectId t; name := task_name t |}.

(** An element of [TasksQueue]. *)
Record QueueEntry : Type := mkEntry {
  qe_env : EnvDefinition;
  qe_task : BuildTask;
}.

(** [TaskResults] (lines 14-45). *)
Record TaskResults : Type := mkTaskResults {
  tr_task : BuildTask;
  tr_env : EnvDefinition;
  componentsResults : list ComponentResult;
  artifacts : option Artifacts;
  startTime : Z;
  endTime : Z;
}.

(** [new TaskResultsList(tasksQueue, tasksResults)]. *)
Record TaskResultsList : Type := mkTaskResultsList {
  trl_tasksQueue : list QueueEntry;
  tasksResults : list TaskResults;
}.

(** Every call that leaves the orchestrator, in the order it is made. *)
Inductive Event : Type :=
  | SetStatusLine (msg : string)
  | ConsoleSuccess
  | CreateLongProcessLogger (msg : string) (total : nat)
  | LogProgress (envId taskName : string)
  | LongProcessEnd
  | ConsoleWarningSkipped (envId taskId failedTaskId : string)
  | ConsoleFailure (envId taskId : string)
  | ConsoleSuccessTask (envId taskName : string)
  | CallPreBuild (task : BuildTask) (envId : string)
  | CallExecute (task : BuildTask) (envId : string)
  | CallPostBuild (task : BuildTask) (envId : string)
  | CallGenerate (task : BuildTask) (envId : string)
      (defs : list ArtifactDefinition).

(** The mutable fields of one [BuildPipe], the world, and the trace. *)
Record PipeState : Type := mkState {
  failedTasks : list BuildTask;
  failedDependencyTask : option BuildTask;
  world : W;
  trace : list Event;
}.

(** A fresh instance: the field initialisers of lines 48-49. *)
Definition new_pipe (w : W) : PipeState :=
  {| failedTasks := []; failedDependencyTask := None;
     world := w; trace := [] |}.

(** ** The monad of the methods *)

Definition M (A : Type) : Type := PipeState -> (Exn + A) * PipeState.

Definition ret {A} (a : A) : M A := fun s => (inr a, s).

Definition throw {A} (e : Exn) : M A := fun s => (inl e, s).

Definition bind {A B} (m : M A) (k : A -> M B) : M B :=
  fun s =>
    match m s with
    | (inl e, s') => (inl e, s')
    | (inr a, s') => k a s'
    end.

Notation "'do' x <- m ; k" := (bind m (fun x => k))
  (at level 10, x name, m at level 100, k at level 200).
Notation "m ;; k" := (bind m (fun _ => k))
  (at level 100, k at level 200, right associativity).

(** Field updates of the state. *)
Definition add_event (ev : Event) (s : PipeState) : PipeState :=
  {| failedTasks := failedTasks s;
     failedDependencyTask := failedDependencyTask s;
     world := world s; trace := trace s ++ [ev] |}.

Definition set_world (w : W) (s : PipeState) : PipeState :=
  {| failedTasks := failedTasks s;
     failedDependencyTask := failedDependencyTask s;
     world := w; trace := trace s |}.

Definition set_failedDependencyTask (o : option BuildTask) (s : PipeState)
  : PipeState :=
  {| failedTasks := failedTasks s; failedDependencyTask := o;
     world := world s; trace := trace s |}.

Definition push_failedTask (t : BuildTask) (s : PipeState) : PipeState :=
  {| failedTasks := failedTasks s ++ [t];
     failedDependencyTask := failedDependencyTask s;
     world := world s; trace := trace s |}.

(** A call to the logger, or the ghost record of a call to a hook. *)
Definition emit (ev : Event) : M unit :=
  fun s => (inr tt, add_event ev s).

(** [await h]: run a hook on the world. *)
Definition await {A} (h : Async A) : M A :=
  fun s => let '(r, w) := h (world s) in (r, set_world w s).

(** A synchronous method of the class that does not throw. *)
Definition modify (f : PipeState -> PipeState) : M unit :=
  fun s => (inr tt, f s).

(** Reading a value off the world ([Date.now()]).  The world moves only
    while a hook is awaited: the time that passes in the orchestrator's
    own code is not modelled, and no statement below relies on it. *)
Definition read {A} (f : W -> A) : M A :=
  fun s => (inr (f (world s)), s).

(** [Bluebird.mapSeries]: the callback runs on one element after the
    other; the first rejection rejects the whole call. *)
Fixpoint mapSeries {A B} (f : A -> M B) (l : list A) : M (list B) :=
  match l with
  | [] => ret []
  | a :: l' =>
      do b <- f a;
      do bs <- mapSeries f l';
      ret (b :: bs)
  end.

(** ** Collaborators *)

(** [Date.now()]. *)
Variable now : W -> Z.
(** [BuildTaskHelper.serializeId] and [BuildTaskHelper.deserializeId]
    of [./build-task]. *)
Variable serializeId : TaskId -> string.
Variable deserializeId : string -> TaskId.
(** [ArtifactFactory.generate] of [./artifact]. *)
Variable generate :
  BuildContext -> list ArtifactDefinition -> BuildTask -> Artifacts.
(** Running the code of a [postBuild] hook. *)
Variable callPostBuild :
  PostBuildHook -> BuildContext -> TaskResultsList -> Async unit.

(** The constructor argument [envsBuildContext], a plain object: its own
    properties, one per registered environment id, each a [BuildContext]
    object and so truthy. *)
Variable envsBuildContext : gmap string BuildContext.

(** The properties the object inherits from [Object.prototype]
    ([constructor], [toString], [__proto__], ...).  A lookup by name finds
    them as it finds an own property, and every one of them is truthy;
    the value found is what a hook then receives as its build context. *)
Variable objectPrototype : gmap string BuildContext.

(** ** The methods *)

(** [this.envsBuildContext[envId]] (line 150): an own property, or else
    one found on the prototype chain, or else [undefined]. *)
Definition envsBuildContextAt (envId : string) : option BuildContext :=
  match envsBuildContext !! envId with
  | Some buildContext => Some buildContext
  | None => objectPrototype !! envId
  end.

(** Lines 149-153. *)
Definition getBuildContext (envId : string) : M BuildContext :=
  match envsBuildContextAt envId with
  | Some buildContext => ret buildContext
  | None => throw (Error ("unable to find buildContext for " ++ envId))
  end.

(** The callback of [failedTasks.find] (lines 134-137). *)
Definition matchesFailed (dep : TaskId) (failedTask : BuildTask) : bool :=
  if truthy (name dep) && negb (bool_decide (name dep = task_name failedTask))
  then false
  else bool_decide (aspectId dep = task_aspectId failedTask).

(** [Array.prototype.find]. *)
Fixpoint find_task (p : BuildTask -> bool) (l : list BuildTask)
  : option BuildTask :=
  match l with
  | [] => None
  | t :: l' => if p t then Some t else find_task p l'
  end.

(** The body of the [forEach] callback (lines 133-137): one assignment
    to [this.failedDependencyTask] per dependency. *)
Definition scanDependency (s : PipeState) (dependency : string) : PipeState :=
  set_failedDependencyTask
    (find_task (matchesFailed (deserializeId dependency)) (failedTasks s)) s.

(** Lines 130-140. *)
Definition updateFailedDependencyTask (task : BuildTask) (s : PipeState)
  : PipeState :=
  match failedDependencyTask s, failedTasks s, dependencies task with
  | None, _ :: _, Some deps => fold_left scanDependency deps s
  | _, _, _ => s
  end.

(** Lines 142-147. *)
Definition shouldSkipTask (taskId envId : string) : M bool :=
  fun s =>
    match failedDependencyTask s with
    | None => ret false s
    | Some failed =>
        (emit (ConsoleWarningSkipped envId taskId
                 (serializeId (task_id failed)));;
         ret true) s
    end.

(** Lines 85-86: the serialized id and the label used in messages. *)
Definition taskIdOf (task : BuildTask) : string :=
  serializeId (task_id task).

Definition taskNameOf (task : BuildTask) : string :=
  taskIdOf task ++
  match description task with
  | Some d => if truthy (Some d) then " (" ++ d ++ ")" else ""
  | None => ""
  end.

(** Lines 109-116. *)
Definition taskResults (task : BuildTask) (env : EnvDefinition)
    (buildTaskResult : BuiltTaskResult) (artifacts : option Artifacts)
    (taskStartTime endTime : Z) : TaskResults :=
  {| tr_task := task; tr_env := env;
     componentsResults := btr_componentsResults buildTaskResult;
     artifacts := artifacts;
     startTime := taskStartTime; endTime := endTime |}.

(** Lines 84-119. *)
Definition executeTask (task : BuildTask) (env : EnvDefinition)
  : M (option TaskResults) :=
  let taskId := taskIdOf task in
  let taskName := taskNameOf task in
  emit (LogProgress (env_id env) taskName);;
  modify (updateFailedDependencyTask task);;
  do skip <- shouldSkipTask taskId (env_id env);
  if skip then ret None
  else
    do taskStartTime <- read now;
    do buildContext <- getBuildContext (env_id env);
    emit (CallExecute task (env_id env));;
    do buildTaskResult <- await (execute_hook task buildContext);
    do endTime <- read now;
    let compsWithErrors :=
      List.filter hasErrors (btr_componentsResults buildTaskResult) in
    do artifacts <-
      match compsWithErrors with
      | _ :: _ =>
          emit (ConsoleFailure (env_id env) taskId);;
          modify (push_failedTask task);;
          ret None
      | [] =>
          emit (ConsoleSuccessTask (env_id env) taskName);;
          let defs := default [] (btr_artifacts buildTaskResult) in
          emit (CallGenerate task (env_id env) defs);;
          ret (Some (generate buildContext defs task))
      end;
    ret (Some (taskResults task env buildTaskResult artifacts
                 taskStartTime endTime)).

(** The callback of [mapSeries] in [executePreBuild] (lines 77-80). *)
Definition preBuildEntry (e : QueueEntry) : M unit :=
  match preBuild (qe_task e) with
  | None => ret tt
  | Some hook =>
      do buildContext <- getBuildContext (env_id (qe_env e));
      emit (CallPreBuild (qe_task e) (env_id (qe_env e)));;
      await (hook buildContext)
  end.

(** Lines 75-82. *)
Definition executePreBuild (tasksQueue : list QueueEntry) : M unit :=
  emit (SetStatusLine "executing pre-build for all tasks");;
  mapSeries preBuildEntry tasksQueue;;
  emit ConsoleSuccess.

(** The callback of [mapSeries] in [executePostBuild] (lines 123-126). *)
Definition postBuildEntry (tasksResults : TaskResultsList) (e : QueueEntry)
  : M unit :=
  match postBuild (qe_task e) with
  | None => ret tt
  | Some hook =>
      do buildContext <- getBuildContext (env_id (qe_env e));
      emit (CallPostBuild (qe_task e) (env_id (qe_env e)));;
      await (callPostBuild hook buildContext tasksResults)
  end.

(** Lines 121-128. *)
Definition executePostBuild (tasksQueue : list QueueEntry)
    (tasksResults : TaskResultsList) : M unit :=
  emit (SetStatusLine "executing post-build for all tasks");;
  mapSeries (postBuildEntry tasksResults) tasksQueue;;
  emit ConsoleSuccess.

(** The main phase: the [mapSeries] of line 67. *)
Definition runTasks (tasksQueue : list QueueEntry)
  : M (list (option TaskResults)) :=
  mapSeries (fun e => executeTask (qe_task e) (qe_env e)) tasksQueue.

(** Lines 64-73. *)
Definition execute (tasksQueue : list QueueEntry) : M TaskResultsList :=
  executePreBuild tasksQueue;;
  emit (CreateLongProcessLogger "running tasks" (length tasksQueue));;
  do results <- runTasks tasksQueue;
  emit LongProcessEnd;;
  let tasksResultsList :=
    {| trl_tasksQueue := tasksQueue; tasksResults := compact results |} in
  executePostBuild tasksQueue tasksResultsList;;
  ret tasksResultsList.

(** ** Vocabulary of the statements *)

(** The queue entry a result was produced for. *)
Definition entry_of (r : TaskResults) : QueueEntry :=
  {| qe_env := tr_env r; qe_task := tr_task r |}.

(** The state in which [executeTask] takes the skip decision: progress
    is logged and [updateFailedDependencyTask] has run (lines 87-88). *)
Definition afterScan (task : BuildTask) (env : EnvDefinition)
    (s : PipeState) : PipeState :=
  updateFailedDependencyTask task
    (add_event (LogProgress (env_id env) (taskNameOf task)) s).

(** The state in which the [execute] hook has been called and has
    settled, leaving the world [w]. *)
Definition afterExecuteHook (task : BuildTask) (env : EnvDefinition)
    (w : W) (s : PipeState) : PipeState :=
  set_world w (add_event (CallExecute task (env_id env)) (afterScan task env s)).

(** The five ways one call of [executeTask] ends: the entry is skipped,
    the build context is missing, the hook rejects, the task fails, the
    task succeeds. *)
Inductive TaskStep (task : BuildTask) (env : EnvDefinition) (s : PipeState)
  : Exn + option TaskResults -> PipeState -> Prop :=
  | step_skipped cause :
      failedDependencyTask (afterScan task env s) = Some cause ->
      TaskStep task env s (inr None)
        (add_event
           (ConsoleWarningSkipped (env_id env) (taskIdOf task) (taskIdOf cause))
           (afterScan task env s))
  | step_no_context :
      failedDependencyTask (afterScan task env s) = None ->
      envsBuildContextAt (env_id env) = None ->
      TaskStep task env s
        (inl (Error ("unable to find buildContext for " ++ env_id env)))
        (afterScan task env s)
  | step_rejected ctx e w :
      failedDependencyTask (afterScan task env s) = None ->
      envsBuildContextAt (env_id env) = Some ctx ->
      execute_hook task ctx (world s) = (inl e, w) ->
      TaskStep task env s (inl e) (afterExecuteHook task env w s)
  | step_failed ctx r w :
      failedDependencyTask (afterScan task env s) = None ->
      envsBuildContextAt (env_id env) = Some ctx ->
      execute_hook task ctx (world s) = (inr r, w) ->
      List.filter hasErrors (btr_componentsResults r) <> [] ->
      TaskStep task env s
        (inr (Some (taskResults task env r None (now (world s)) (now w))))
        (push_failedTask task
           (add_event (ConsoleFailure (env_id env) (taskIdOf task))
              (afterExecuteHook task env w s)))
  | step_succeeded ctx r w :
      failedDependencyTask (afterScan task env s) = None ->
      envsBuildContextAt (env_id env) = Some ctx ->
      execute_hook task ctx (world s) = (inr r, w) ->
      List.filter hasErrors (btr_componentsResults r) = [] ->
      TaskStep task env s
        (inr (Some (taskResults task env r
                      (Some (generate ctx (default [] (btr_artifacts r)) task))
                      (now (world s)) (now w))))
        (add_event
           (CallGenerate task (env_id env) (default [] (btr_artifacts r)))
           (add_event (ConsoleSuccessTask (env_id env) (taskNameOf task))
              (afterExecuteHook task env w s))).

(** Events by kind. *)
Definition is_skip_warning (ev : Event) : bool :=
  match ev with ConsoleWarningSkipped _ _ _ => true | _ => false end.

Definition is_generate (ev : Event) : bool :=
  match ev with CallGenerate _ _ _ => true | _ => false end.

(** The environment id a hook was called with, for the three hooks. *)
Definition hook_env (ev : Event) : option string :=
  match ev with
  | CallPreBuild _ envId | CallExecute _ envId | CallPostBuild _ envId =>
      Some envId
  | _ => None
  end.

(** Number of entries reported as skipped in a trace. *)
Definition skipped_count (tr : list Event) : nat :=
  length (List.filter is_skip_warning tr).

(** Number of calls of the artifact factory in a trace. *)
Definition generate_count (tr : list Event) : nat :=
  length (List.filter is_generate tr).

Definition has_artifacts (r : TaskResults) : bool :=
  match artifacts r with Some _ => true | None => false end.

(** The result holds no component result with a non-empty [errors]. *)
Definition noErrors (r : TaskResults) : Prop :=
  List.filter hasErrors (componentsResults r) = [].

(** What can make a run throw [err] at an entry: the lookup of its
    environment id finds nothing, or one of its hooks, called with the
    build context the lookup found, rejects with [err]. *)
Definition throwsAt (e : QueueEntry) (err : Exn) : Prop :=
  (envsBuildContextAt (env_id (qe_env e)) = None /\
   err = Error ("unable to find buildContext for " ++ env_id (qe_env e))) \/
  (exists ctx,
     envsBuildContextAt (env_id (qe_env e)) = Some ctx /\
     ((exists h w, preBuild (qe_task e) = Some h /\ fst (h ctx w) = inl err) \/
      (exists w, fst (execute_hook (qe_task e) ctx w) = inl err) \/
      (exists h l w,
         postBuild (qe_task e) = Some h /\
         fst (callPostBuild h ctx l w) = inl err))).

(** The part of the pre-build phase that the entries [pre] account for:
    the status line and their callbacks (lines 76-80). *)
Definition preBuildUpTo (pre : list QueueEntry) : M (list unit) :=
  emit (SetStatusLine "executing pre-build for all tasks");;
  mapSeries preBuildEntry pre.

(** ** Relations between the state before and after a method *)

(** The state a method leaves is related by [R] to the state it was
    called in, whether it returns or throws. *)
Definition respects {A} (R : PipeState -> PipeState -> Prop) (m : M A)
  : Prop :=
  forall s, R s (snd (m s)).

(** The trace is only extended, by events of kind [K]. *)
Definition extends (K : Event -> Prop) (s s' : PipeState) : Prop :=
  exists evs, trace s' = (trace s ++ evs)%list /\ Forall K evs.

(** The two fields of the class are left as they were. *)
Definition frame (K : Event -> Prop) (s s' : PipeState) : Prop :=
  extends K s s' /\
  failedTasks s' = failedTasks s /\
  failedDependencyTask s' = failedDependencyTask s.

(** A recorded cause stays, and failed tasks are only added. *)
Definition grows (K : Event -> Prop) (s s' : PipeState) : Prop :=
  extends K s s' /\
  (exists l, failedTasks s' = (failedTasks s ++ l)%list) /\
  (forall cause, failedDependencyTask s = Some cause ->
                 failedDependencyTask s' = Some cause).

(** A hook is only ever called with an environment id the lookup finds. *)
Definition registered (ev : Event) : Prop :=
  forall envId, hook_env ev = Some envId ->
                is_Some (envsBuildContextAt envId).

(** An event of the pre-build phase. *)
Definition preBuildEvent (ev : Event) : Prop :=
  match ev with
  | SetStatusLine _ | ConsoleSuccess => True
  | CallPreBuild _ envId => is_Some (envsBuildContextAt envId)
  | _ => False
  end.

(** An event of the post-build phase. *)
Definition postBuildEvent (ev : Event) : Prop :=
  match ev with
  | SetStatusLine _ | ConsoleSuccess => True
  | CallPostBuild _ envId => is_Some (envsBuildContextAt envId)
  | _ => False
  end.

(** An event of the main phase. *)
Definition taskEvent (ev : Event) : Prop :=
  match ev with
  | SetStatusLine _ | ConsoleSuccess | CallPreBuild _ _
  | CallPostBuild _ _ => False
  | CallExecute _ envId => is_Some (envsBuildContextAt envId)
  | _ => True
  end.

(** The [execute] hooks called are hooks of entries of [queue]. *)
Definition executeOf (queue : list QueueEntry) (ev : Event) : Prop :=
  match ev with
  | CallExecute t envId =>
      exists e, e ∈ queue /\ qe_task e = t /\ env_id (qe_env e) = envId
  | _ => True
  end.

End BuildPipe.

(** ** The spec's wording of the dependency scan

    Section 4.2, step 2, in the spec's own words: the dependencies are
    scanned in declared order, and the first one that matches a failed
    task (the first such task in discovery order) gives the cause.  It is
    compared with [updateFailedDependencyTask] of the source below. *)
Fixpoint spec_first_match {T : Type} (matches : string -> T -> bool)
    (deps : list string) (failed : list T) : option T :=
  match deps with
  | [] => None
  | d :: deps' =>
      match List.find (matches d) failed with
      | Some t => Some t
      | None => spec_first_match matches deps' failed
      end
  end.

(** ** A concrete pipeline

    A small instance on which the general statements are evaluated: the
    world is a clock that every hook advances, a build context is the
    list of its component names, and task identifiers are written
    [aspect:name]. *)
Module Demo.

(** Modelled from the spec: [BuildTaskHelper] of [./build-task] is
    missing; section 4.1 asks for a canonical string with a reserved
    separator, [A] for a nameless identifier and [A:name] otherwise. *)
Definition serializeId (i : TaskId) : string :=
  match name i with
  | Some n => aspectId i ++ ":" ++ n
  | None => aspectId i
  end.

Fixpoint split_colon (s : string) : string * option string :=
  match s with
  | EmptyString => (EmptyString, None)
  | String c s' =>
      if Ascii.eqb c ":"%char then (EmptyString, Some s')
      else let '(a, n) := split_colon s' in (String c a, n)
  end.

(** Modelled from the spec: the inverse of [serializeId] (section 4.1). *)
Definition deserializeId (s : string) : TaskId :=
  let '(a, n) := split_colon s in {| aspectId := a; name := n |}.

Definition now (w : nat) : Z := Z.of_nat w.

Definition tick {A : Type} (a : A) : nat -> (Exn + A) * nat :=
  fun w => (inr a, S w).

Definition Task : Type := @BuildTask nat (list string) string unit.
Definition Entry : Type := @QueueEntry nat (list string) string unit.
Definition State : Type := @PipeState nat (list string) string unit.

(** One artifact per definition and component. *)
Definition generate (ctx : list string) (defs : list string) (t : Task)
  : list string :=
  flat_map (fun d => map (fun c => d ++ "/" ++ c) ctx) defs.

Definition callPostBuild (h : unit) (ctx : list string)
    (l : @TaskResultsList nat (list string) string (list string) unit)
  : nat -> (Exn + unit) * nat :=
  tick tt.

Definition envs : gmap string (list string) :=
  <["env1" := ["button"; "card"]]> ∅.

(** The names every plain object inherits from [Object.prototype].  What
    a lookup finds under them is a function or an object, not a build
    context; seen as a list of components it has none. *)
Definition objectPrototype : gmap string (list string) :=
  list_to_map
    (map (fun name => (name, []))
       [ "constructor"; "hasOwnProperty"; "isPrototypeOf";
         "propertyIsEnumerable"; "toLocaleString"; "toString"; "valueOf";
         "__proto__"; "__defineGetter__"; "__defineSetter__";
         "__lookupGetter__"; "__lookupSetter__" ]).

Definition env1 : EnvDefinition := {| env_id := "env1" |}.
Definition envMissing : EnvDefinition := {| env_id := "ghost" |}.

Definition ok_result : @BuiltTaskResult string :=
  {| btr_componentsResults :=
       [ {| component := "button"; errors := None |};
         {| component := "card"; errors := Some [] |} ];
     btr_artifacts := Some ["dist"] |}.

Definition failed_result : @BuiltTaskResult string :=
  {| btr_componentsResults :=
       [ {| component := "button"; errors := Some ["type error"] |};
         {| component := "card"; errors := None |} ];
     btr_artifacts := None |}.

(** Task [A] fails on one component. *)
Definition taskA : Task :=
  {| task_aspectId := "A"; task_name := None; description := None;
     dependencies := None; preBuild := None;
     execute_hook := fun _ => tick failed_result; postBuild := None |}.

(** Task [compiler:ts] succeeds and has both optional hooks. *)
Definition taskC : Task :=
  {| task_aspectId := "compiler"; task_name := Some "ts";
     description := Some "compile"; dependencies := Some [];
     preBuild := Some (fun _ => tick tt);
     execute_hook := fun _ => tick ok_result; postBuild := Some tt |}.

(** Task [B] depends on [A] alone and has no optional hook. *)
Definition taskB : Task :=
  {| task_aspectId := "B"; task_name := None; description := None;
     dependencies := Some ["A"]; preBuild := None;
     execute_hook := fun _ => tick ok_result; postBuild := None |}.

(** Task [D] depends on [A] and then on [B]. *)
Definition taskD : Task :=
  {| task_aspectId := "D"; task_name := None; description := None;
     dependencies := Some ["A"; "B"]; preBuild := None;
     execute_hook := fun _ => tick ok_result; postBuild := None |}.

(** Task [tester] succeeds, has no dependency and no optional hook. *)
Definition taskT : Task :=
  {| task_aspectId := "tester"; task_name := None; description := None;
     dependencies := None; preBuild := None;
     execute_hook := fun _ => tick ok_result; postBuild := None |}.

Definition entry (t : Task) (e : EnvDefinition) : Entry :=
  {| qe_env := e; qe_task := t |}.

Definition executeTask :=
  executeTask now serializeId deserializeId generate envs objectPrototype.
Definition execute :=
  execute now serializeId deserializeId generate callPostBuild envs
    objectPrototype.
Definition executePreBuild : list Entry -> State -> (Exn + unit) * State :=
  executePreBuild envs objectPrototype.
Definition updateFailedDependencyTask :=
  @updateFailedDependencyTask nat (list string) string unit deserializeId.

(** The state of a pipe in which [A] has failed and no cause is recorded. *)
Definition afterA : State :=
  {| failedTasks := [taskA]; failedDependencyTask := None;
     world := 5; trace := [] |}.


(** Nothing fails. *)
Definition queueClean : list Entry := [entry taskC env1; entry taskT env1].

(** [A] fails, [B] depends on it, [tester] comes after. *)
Definition queueCascade : list Entry :=
  [entry taskA env1; entry taskB env1; entry taskT env1].

(** A success, a failure, a success. *)
Definition queueMixed : list Entry :=
  [entry taskC env1; entry taskA env1; entry taskT env1].

(** [A] fails, and its dependent [B] runs in an unregistered environment. *)
Definition queueGhostSkipped : list Entry :=
  [entry taskA env1; entry taskB envMissing].

(** An entry without hooks in an unregistered environment comes first. *)
Definition queueGhostFirst : list Entry :=
  [entry taskT envMissing; entry taskC env1].

(** [A] fails, and [D] depends on [A] and then on [B]. *)
Definition queueLastDependency : list Entry :=
  [entry taskA env1; entry taskD env1].

(** An environment that is not registered and whose id names a property
    every object inherits. *)
Definition envConstructor : EnvDefinition := {| env_id := "constructor" |}.

(** Task [F] fails when it is executed at an even time and succeeds at an
    odd one. *)
Definition taskF : Task :=
  {| task_aspectId := "F"; task_name := None; description := None;
     dependencies := None; preBuild := None;
     execute_hook :=
       fun _ w => (inr (if Nat.even w then failed_result else ok_result), S w);
     postBuild := None |}.

(** [F] and then [tester]. *)
Definition queueFlaky : list Entry := [entry taskF env1; entry taskT env1].

(** One entry, in the environment [constructor]. *)
Definition queueConstructor : list Entry := [entry taskT envConstructor].

End Demo.

(** * The rest of the pipeline: lifecycle and logger protocol *)

Section Lifecycle.

Context {W BuildContext ArtifactDefinition Artifacts PostBuildHook : Type}.
Variable serializeId : TaskId -> string.

(** The calls of the three hooks among the events of a trace. *)
Definition is_hook_call
    (ev : @Event W BuildContext ArtifactDefinition PostBuildHook) : bool :=
  match hook_env ev with Some _ => true | None => false end.

Definition hookCalls
    (tr : list (@Event W BuildContext ArtifactDefinition PostBuildHook))
  : list Event :=
  List.filter is_hook_call tr.

(** The call [task.preBuild(...)] of line 79, for the entries that have
    the hook, in queue order. *)
Definition preBuildCalls
    (queue : list (@QueueEntry W BuildContext ArtifactDefinition PostBuildHook))
  : list Event :=
  flat_map
    (fun e =>
       match preBuild (qe_task e) with
       | Some _ => [CallPreBuild (qe_task e) (env_id (qe_env e))]
       | None => []
       end) queue.

(** The call [task.postBuild(...)] of line 125, likewise. *)
Definition postBuildCalls
    (queue : list (@QueueEntry W BuildContext ArtifactDefinition PostBuildHook))
  : list Event :=
  flat_map
    (fun e =>
       match postBuild (qe_task e) with
       | Some _ => [CallPostBuild (qe_task e) (env_id (qe_env e))]
       | None => []
       end) queue.

(** The call [task.execute(...)] of line 95 behind each result. *)
Definition executeCalls
    (rs : list (@TaskResults W BuildContext ArtifactDefinition Artifacts
                  PostBuildHook))
  : list (@Event W BuildContext ArtifactDefinition PostBuildHook) :=
  map (fun r => CallExecute (tr_task r) (env_id (tr_env r))) rs.

(** The entries reported as skipped in a trace: environment id and
    serialized task id of each warning of line 145. *)
Definition skipReports
    (tr : list (@Event W BuildContext ArtifactDefinition PostBuildHook))
  : list (string * string) :=
  flat_map
    (fun ev =>
       match ev with
       | ConsoleWarningSkipped envId taskId _ => [(envId, taskId)]
       | _ => []
       end) tr.

(** The phase a hook belongs to. *)
Definition phase_of
    (ev : @Event W BuildContext ArtifactDefinition PostBuildHook)
  : option nat :=
  match ev with
  | CallPreBuild _ _ => Some 0
  | CallExecute _ _ => Some 1
  | CallPostBuild _ _ => Some 2
  | _ => None
  end.

(** The calls on the long-process logger (lines 66, 68 and 87). *)
Definition is_long_process
    (ev : @Event W BuildContext ArtifactDefinition PostBuildHook) : bool :=
  match ev with
  | CreateLongProcessLogger _ _ | LogProgress _ _ | LongProcessEnd => true
  | _ => false
  end.

(** What the long-process logger sees in a run that returns: it is
    created with the length of the queue, logs one progress line per
    entry, and is ended. *)
Definition longProcessProtocol
    (queue : list (@QueueEntry W BuildContext ArtifactDefinition PostBuildHook))
  : list (@Event W BuildContext ArtifactDefinition PostBuildHook) :=
  CreateLongProcessLogger "running tasks" (length queue)
  :: (map (fun e => LogProgress (env_id (qe_env e))
                      (taskNameOf serializeId (qe_task e))) queue
      ++ [LongProcessEnd])%list.

(** The failed task every skip report of a trace cites, when there is a
    cause; no skip report without a cause. *)
Definition causeInvariant
    (s : @PipeState W BuildContext ArtifactDefinition PostBuildHook) : Prop :=
  match failedDependencyTask s with
  | None => skipped_count (trace s) = 0
  | Some cause =>
      cause ∈ failedTasks s /\
      Forall (fun ev => forall envId taskId failedTaskId,
                ev = ConsoleWarningSkipped envId taskId failedTaskId ->
                failedTaskId = taskIdOf serializeId cause)
        (trace s)
  end.

End Lifecycle.

(** * The components drawer

    [src/extensions/scope/components.drawer.tsx]: the tree of a scope is
    drawn by the function [TreeNode] (lines 25-42), which React calls
    once for every [<TreeNodeRenderer>] element that the function itself
    returns.  Elements are modelled as data, the components of other
    packages ([ComponentView], [NamespaceTreeNode], [FullLoader],
    [ComponentTree]) as constructors. *)

Section ComponentsDrawer.

(** The payload of a node, the props of [TreeNodeProps] other than
    [node], the slot, and [scope.components]. *)
Context {Payload Rest Slot Components : Type}.

(** [payload instanceof ScopePayload]. *)
Variable isScopePayload : Payload -> bool.

(** The constructor argument [treeNodeSlot]. *)
Variable treeNodeSlot : Slot.

(** A node of the tree: [children] may be [undefined]. *)
#[warnings="-register-all"]
Inductive Node : Type :=
  | mkNode (node_id : string) (payload : Payload)
      (children : option (list Node)).

Definition node_id (n : Node) : string :=
  match n with mkNode i _ _ => i end.

Definition payload (n : Node) : Payload :=
  match n with mkNode _ p _ => p end.

Definition children (n : Node) : option (list Node) :=
  match n with mkNode _ _ cs => cs end.

(** [TreeNodeProps<PayloadType>]. *)
Record TreeNodeProps : Type := mkProps {
  node : Node;
  rest : Rest;
}.

(** What a render function returns. *)
#[warnings="-register-all"]
Inductive Element : Type :=
  | ComponentView (props : TreeNodeProps) (slot : Slot)
  | NamespaceTreeNode (props : TreeNodeProps)
  | Fragment (elements : list Element)
  | TreeNodeRenderer (key : string) (props : TreeNodeProps)
  | FullLoader
  | ComponentTree (components : Components)
      (renderer : TreeNodeProps -> Element).

(** Lines 25-42. *)
Definition TreeNode (props : TreeNodeProps) : Element :=
  match children (node props) with
  | None => ComponentView props treeNodeSlot
  | Some children =>
      if isScopePayload (payload (node props))
      then Fragment
             (map (fun childNode =>
                     TreeNodeRenderer (node_id childNode)
                       {| node := childNode; rest := rest props |})
                children)
      else NamespaceTreeNode props
  end.

(** [useScope()] gives a scope or nothing. *)
Record Scope : Type := mkScope {
  components : Components;
}.

(** Lines 20-48. *)
Definition render (scope : option Scope) : Element :=
  match scope with
  | None => FullLoader
  | Some scope => ComponentTree (components scope) TreeNode
  end.

(** What React draws for a node: [TreeNode] is called on the node, and
    again on every [<TreeNodeRenderer>] element of its result. *)
Fixpoint mountNode (r : Rest) (n : Node) : Element :=
  match n with
  | mkNode _ _ None => ComponentView {| node := n; rest := r |} treeNodeSlot
  | mkNode _ p (Some cs) =>
      if isScopePayload p
      then Fragment (map (mountNode r) cs)
      else NamespaceTreeNode {| node := n; rest := r |}
  end.

(** One pass of React over an element: the [<TreeNodeRenderer>] elements
    are replaced by what is drawn for them. *)
Fixpoint mount (el : Element) : Element :=
  match el with
  | TreeNodeRenderer _ props => mountNode (rest props) (node props)
  | Fragment els => Fragment (map mount els)
  | _ => el
  end.

(** The views on screen, in document order: fragments draw nothing of
    their own. *)
Fixpoint views (el : Element) : list Element :=
  match el with
  | Fragment els => flat_map views els
  | _ => [el]
  end.

(** The view [TreeNode] returns for a node it does not skip. *)
Definition viewOf (r : Rest) (n : Node) : Element :=
  match children n with
  | None => ComponentView {| node := n; rest := r |} treeNodeSlot
  | Some _ => NamespaceTreeNode {| node := n; rest := r |}
  end.

(** The nodes below [root] with only scope nodes above them, [root]
    included: a scope node that has children is skipped. *)
Inductive shownUnder (root : Node) : Node -> Prop :=
  | shown_leaf :
      children root = None -> shownUnder root root
  | shown_namespace cs :
      children root = Some cs -> isScopePayload (payload root) = false ->
      shownUnder root root
  | shown_below cs c n :
      children root = Some cs -> isScopePayload (payload root) = true ->
      c ∈ cs -> shownUnder c n -> shownUnder root n.

End ComponentsDrawer.

(** ** More of the concrete pipeline *)

Module DemoMore.

Import Demo.

(** Task [R]: its [execute] hook rejects. *)
Definition taskR : Task :=
  {| task_aspectId := "R"; task_name := None; description := None;
     dependencies := None; preBuild := None;
     execute_hook := fun _ w => (inl (Error "boom"), S w);
     postBuild := None |}.

Definition runTasks :=
  runTasks now serializeId deserializeId generate envs objectPrototype.

(** [R] stands between two tasks that succeed. *)
Definition queueRejecting : list Entry :=
  [entry taskC env1; entry taskR env1; entry taskT env1].

End DemoMore.

(** * Properties of the orchestrator *)

Section Properties.

Local Open Scope list_scope.

Context {W BuildContext ArtifactDefinition Artifacts PostBuildHook : Type}.

Abbreviation Task := (@BuildTask W BuildContext ArtifactDefinition PostBuildHook).
Abbreviation Entry := (@QueueEntry W BuildContext ArtifactDefinition PostBuildHook).
Abbreviation State := (@PipeState W BuildContext ArtifactDefinition PostBuildHook).
Abbreviation Ev := (@Event W BuildContext ArtifactDefinition PostBuildHook).
Abbreviation Result :=
  (@TaskResults W BuildContext ArtifactDefinition Artifacts PostBuildHook).
Abbreviation ResultsList :=
  (@TaskResultsList W BuildContext ArtifactDefinition Artifacts PostBuildHook).

Variable now : W -> Z.
Variable serializeId : TaskId -> string.
Variable deserializeId : string -> TaskId.
Variable generate :
  BuildContext -> list ArtifactDefinition -> Task -> Artifacts.
Variable callPostBuild :
  PostBuildHook -> BuildContext -> ResultsList -> @Async W unit.
Variable envsBuildContext : gmap string BuildContext.
Variable objectPrototype : gmap string BuildContext.

Abbreviation envsBuildContextAt :=
  (envsBuildContextAt envsBuildContext objectPrototype).
Abbreviation taskIdOf := (taskIdOf serializeId).
Abbreviation taskNameOf := (taskNameOf serializeId).
Abbreviation scanDependency := (scanDependency deserializeId).
Abbreviation updateFailedDependencyTask :=
  (updateFailedDependencyTask deserializeId).
Abbreviation shouldSkipTask := (shouldSkipTask serializeId).
Abbreviation getBuildContext :=
  (getBuildContext envsBuildContext objectPrototype).
Abbreviation afterScan := (afterScan serializeId deserializeId).
Abbreviation afterExecuteHook := (afterExecuteHook serializeId deserializeId).
Abbreviation executeTask :=
  (executeTask now serializeId deserializeId generate envsBuildContext
     objectPrototype).
Abbreviation TaskStep :=
  (TaskStep now serializeId deserializeId generate envsBuildContext
     objectPrototype).
Abbreviation preBuildEntry := (preBuildEntry envsBuildContext objectPrototype).
Abbreviation postBuildEntry :=
  (postBuildEntry callPostBuild envsBuildContext objectPrototype).
Abbreviation executePreBuild :=
  (executePreBuild envsBuildContext objectPrototype).
Abbreviation executePostBuild :=
  (executePostBuild callPostBuild envsBuildContext objectPrototype).
Abbreviation preBuildUpTo := (preBuildUpTo envsBuildContext objectPrototype).
Abbreviation runTasks :=
  (runTasks now serializeId deserializeId generate envsBuildContext
     objectPrototype).
Abbreviation execute :=
  (execute now serializeId deserializeId generate callPostBuild
     envsBuildContext objectPrototype).
Abbreviation throwsAt :=
  (throwsAt callPostBuild envsBuildContext objectPrototype).
Abbreviation registered := (registered envsBuildContext objectPrototype).
Abbreviation preBuildEvent := (preBuildEvent envsBuildContext objectPrototype).
Abbreviation postBuildEvent :=
  (postBuildEvent envsBuildContext objectPrototype).
Abbreviation taskEvent := (taskEvent envsBuildContext objectPrototype).

(** ** The lookup of an environment id *)

Lemma own_property (envId : string) (ctx : BuildContext) :
  envsBuildContext !! envId = Some ctx -> envsBuildContextAt envId = Some ctx.
Proof. intros H. unfold envsBuildContextAt. by rewrite H. Qed.

Lemma inherited_property (envId : string) :
  envsBuildContext !! envId = None ->
  envsBuildContextAt envId = objectPrototype !! envId.
Proof. intros H. unfold envsBuildContextAt. by rewrite H. Qed.

(** ** The dependency scan *)

Lemma scan_fields (deps : list string) (s : State) :
  failedTasks (fold_left scanDependency deps s) = failedTasks s /\
  world (fold_left scanDependency deps s) = world s /\
  trace (fold_left scanDependency deps s) = trace s.
Proof.
  revert s. induction deps as [|d deps IH]; intros s; simpl; [done|].
  destruct (IH (scanDependency s d)) as (-> & -> & ->). done.
Qed.

Lemma update_fields (task : Task) (s : State) :
  failedTasks (updateFailedDependencyTask task s) = failedTasks s /\
  world (updateFailedDependencyTask task s) = world s /\
  trace (updateFailedDependencyTask task s) = trace s.
Proof.
  unfold updateFailedDependencyTask.
  destruct (failedDependencyTask s), (failedTasks s) eqn:E,
    (dependencies task); try done.
  rewrite <- E. apply scan_fields.
Qed.

(** A recorded cause passes through [updateFailedDependencyTask]: the
    guard of line 131. *)
Lemma update_keeps_cause (task : Task) (s : State) (cause : Task) :
  failedDependencyTask s = Some cause ->
  updateFailedDependencyTask task s = s.
Proof.
  intros H. unfold updateFailedDependencyTask. by rewrite H.
Qed.

(** The [forEach] leaves the result of [find] for the last dependency. *)
Lemma scan_last (deps : list string) (d : string) (s : State) :
  failedDependencyTask (fold_left scanDependency (deps ++ [d]) s) =
  find_task (matchesFailed (deserializeId d)) (failedTasks s).
Proof.
  rewrite fold_left_app. simpl.
  by destruct (scan_fields deps s) as (-> & _).
Qed.

(** So does [updateFailedDependencyTask], whenever it scans: the cause it
    leaves is decided by the last dependency alone. *)
Lemma update_records_last_dependency (task : Task) (s : State)
    (deps : list string) (d : string) :
  failedDependencyTask s = None ->
  failedTasks s <> [] ->
  dependencies task = Some (deps ++ [d]) ->
  failedDependencyTask (updateFailedDependencyTask task s) =
  find_task (matchesFailed (deserializeId d)) (failedTasks s).
Proof.
  intros Hc Hf Hd. unfold updateFailedDependencyTask. rewrite Hc, Hd.
  destruct (failedTasks s) as [|t l] eqn:E; [done|].
  rewrite <- E. apply scan_last.
Qed.

Lemma afterScan_fields (task : Task) (env : EnvDefinition) (s : State) :
  failedTasks (afterScan task env s) = failedTasks s /\
  world (afterScan task env s) = world s /\
  trace (afterScan task env s) =
    trace s ++ [LogProgress (env_id env) (taskNameOf task)].
Proof.
  unfold afterScan.
  by destruct (update_fields task
                 (add_event (LogProgress (env_id env) (taskNameOf task)) s))
    as (-> & -> & ->).
Qed.

Lemma afterScan_keeps_cause (task : Task) env (s : State) (cause : Task) :
  failedDependencyTask s = Some cause ->
  failedDependencyTask (afterScan task env s) = Some cause.
Proof.
  intros H. unfold afterScan.
  by rewrite (update_keeps_cause _ _ cause).
Qed.

(** ** One call of [executeTask] *)

Lemma executeTask_step (task : Task) (env : EnvDefinition) (s : State)
    out s' :
  executeTask task env s = (out, s') -> TaskStep task env s out s'.
Proof.
  unfold executeTask, bind, emit, modify, read, ret, await.
  unfold shouldSkipTask, getBuildContext, bind, emit,
    ret, throw.
  fold (afterScan task env s).
  pose proof (afterScan_fields task env s) as (_ & Hw & _).
  destruct (failedDependencyTask (afterScan task env s)) as [c|] eqn:Hc.
  { intros [= <- <-]. by apply step_skipped. }
  destruct (envsBuildContextAt (env_id env)) as [ctx|] eqn:Hctx.
  2:{ intros [= <- <-]. by apply step_no_context. }
  simpl. rewrite Hw.
  destruct (execute_hook task ctx (world s)) as [[e|r] w] eqn:Hx.
  { intros [= <- <-]. by eapply step_rejected. }
  simpl.
  destruct (List.filter hasErrors (btr_componentsResults r)) eqn:Hf.
  - intros [= <- <-]. by eapply step_succeeded.
  - intros [= <- <-]. eapply step_failed; eauto. by rewrite Hf.
Qed.

(** ** The monad *)

Lemma extends_refl (K : Ev -> Prop) (s : State) : extends K s s.
Proof. exists []. by rewrite app_nil_r. Qed.

Lemma extends_trans (K : Ev -> Prop) (s1 s2 s3 : State) :
  extends K s1 s2 -> extends K s2 s3 -> extends K s1 s3.
Proof.
  intros (e1 & H1 & F1) (e2 & H2 & F2). exists (e1 ++ e2).
  rewrite H2, H1, app_assoc. split; [done|]. by apply Forall_app.
Qed.

Lemma extends_weaken (K K' : Ev -> Prop) (s s' : State) :
  (forall ev, K ev -> K' ev) -> extends K s s' -> extends K' s s'.
Proof.
  intros HK (evs & H & F). exists evs. split; [done|].
  eapply Forall_impl; eauto.
Qed.

Lemma extends_add_event (K : Ev -> Prop) (ev : Ev) (s : State) :
  K ev -> extends K s (add_event ev s).
Proof. intros H. exists [ev]. split; [done|]. by constructor. Qed.

#[local] Instance frame_refl (K : Ev -> Prop) : Reflexive (frame K).
Proof. intros s. split; [apply extends_refl|done]. Qed.

#[local] Instance frame_trans (K : Ev -> Prop) : Transitive (frame K).
Proof.
  intros s1 s2 s3 (E1 & F1 & C1) (E2 & F2 & C2).
  split; [by eapply extends_trans|]. split; congruence.
Qed.

#[local] Instance grows_refl (K : Ev -> Prop) : Reflexive (grows K).
Proof.
  intros s. split; [apply extends_refl|]. split; [|done].
  exists []. by rewrite app_nil_r.
Qed.

#[local] Instance grows_trans (K : Ev -> Prop) : Transitive (grows K).
Proof.
  intros s1 s2 s3 (E1 & (l1 & F1) & C1) (E2 & (l2 & F2) & C2).
  split; [by eapply extends_trans|]. split; [|by auto].
  exists (l1 ++ l2). by rewrite F2, F1, app_assoc.
Qed.

Lemma frame_grows (K K' : Ev -> Prop) (s s' : State) :
  (forall ev, K ev -> K' ev) -> frame K s s' -> grows K' s s'.
Proof.
  intros HK (E & F & C). split; [by eapply extends_weaken|].
  split; [exists []; by rewrite app_nil_r|]. intros c. by rewrite C.
Qed.

Lemma grows_weaken (K K' : Ev -> Prop) (s s' : State) :
  (forall ev, K ev -> K' ev) -> grows K s s' -> grows K' s s'.
Proof. intros HK (E & F). split; [by eapply extends_weaken|done]. Qed.

Section Respects.
Variable R : State -> State -> Prop.
Context `{!Reflexive R, !Transitive R}.

Lemma respects_ret {A} (a : A) : respects R (ret a).
Proof. intros s. simpl. reflexivity. Qed.

Lemma respects_bind {A B} (m : M A) (k : A -> M B) :
  respects R m -> (forall a, respects R (k a)) -> respects R (bind m k).
Proof.
  intros Hm Hk s. unfold bind. specialize (Hm s).
  destruct (m s) as [[e|a] s1]; simpl in *; [done|].
  etrans; [exact Hm|apply Hk].
Qed.

Lemma respects_mapSeries {A B} (f : A -> M B) (l : list A) :
  (forall a, respects R (f a)) -> respects R (mapSeries f l).
Proof.
  intros Hf. induction l as [|a l IH]; simpl.
  - apply respects_ret.
  - apply respects_bind; [apply Hf|]. intros b.
    apply respects_bind; [apply IH|]. intros bs. apply respects_ret.
Qed.

Lemma respects_emit (ev : Ev) :
  (forall s, R s (add_event ev s)) -> respects R (emit ev).
Proof. intros H s. apply H. Qed.
End Respects.

Lemma frame_add_event (K : Ev -> Prop) (ev : Ev) (s : State) :
  K ev -> frame K s (add_event ev s).
Proof. intros H. split; [by apply extends_add_event|done]. Qed.

Lemma frame_set_world (K : Ev -> Prop) (w : W) (s : State) :
  frame K s (set_world w s).
Proof. split; [|done]. exists []. simpl. by rewrite app_nil_r. Qed.

(** ** The pre-build and post-build phases leave the fields alone *)

Lemma preBuildEntry_frame (e : Entry) :
  respects (frame preBuildEvent) (preBuildEntry e).
Proof.
  intros s.
  unfold preBuildEntry, getBuildContext, bind, ret, throw, emit, await.
  destruct (preBuild (qe_task e)) as [h|]; [|reflexivity].
  destruct (envsBuildContextAt (env_id (qe_env e))) as [ctx|] eqn:Hctx;
    simpl; [|reflexivity].
  assert (frame preBuildEvent s
            (add_event (CallPreBuild (qe_task e) (env_id (qe_env e))) s))
    as Hev by (apply frame_add_event; simpl; by rewrite Hctx).
  destruct (h ctx (world s)) as [[?|?] w]; simpl;
    (etrans; [exact Hev|apply frame_set_world]).
Qed.

Lemma executePreBuild_frame (queue : list Entry) :
  respects (frame preBuildEvent) (executePreBuild queue).
Proof.
  unfold executePreBuild.
  apply respects_bind; try apply _.
  { apply respects_emit. intros s. by apply frame_add_event. }
  intros _. apply respects_bind; try apply _.
  { apply respects_mapSeries; try apply _. apply preBuildEntry_frame. }
  intros _. apply respects_emit. intros s. by apply frame_add_event.
Qed.

Lemma postBuildEntry_frame (l : ResultsList) (e : Entry) :
  respects (frame postBuildEvent) (postBuildEntry l e).
Proof.
  intros s.
  unfold postBuildEntry, getBuildContext, bind, ret, throw, emit, await.
  destruct (postBuild (qe_task e)) as [h|]; [|reflexivity].
  destruct (envsBuildContextAt (env_id (qe_env e))) as [ctx|] eqn:Hctx;
    simpl; [|reflexivity].
  assert (frame postBuildEvent s
            (add_event (CallPostBuild (qe_task e) (env_id (qe_env e))) s))
    as Hev by (apply frame_add_event; simpl; by rewrite Hctx).
  destruct (callPostBuild h ctx l (world s)) as [[?|?] w]; simpl;
    (etrans; [exact Hev|apply frame_set_world]).
Qed.

Lemma executePostBuild_frame (queue : list Entry) (l : ResultsList) :
  respects (frame postBuildEvent) (executePostBuild queue l).
Proof.
  unfold executePostBuild.
  apply respects_bind; try apply _.
  { apply respects_emit. intros s. by apply frame_add_event. }
  intros _. apply respects_bind; try apply _.
  { apply respects_mapSeries; try apply _. apply postBuildEntry_frame. }
  intros _. apply respects_emit. intros s. by apply frame_add_event.
Qed.

(** ** The main phase *)

Lemma preBuildEvent_registered (ev : Ev) : preBuildEvent ev -> registered ev.
Proof. destruct ev; simpl; try done; by intros H ? [= <-]. Qed.

Lemma postBuildEvent_registered (ev : Ev) :
  postBuildEvent ev -> registered ev.
Proof. destruct ev; simpl; try done; by intros H ? [= <-]. Qed.

Lemma taskEvent_registered (ev : Ev) : taskEvent ev -> registered ev.
Proof. destruct ev; simpl; try done; by intros H ? [= <-]. Qed.

Lemma update_add_event (task : Task) (ev : Ev) (s : State) :
  updateFailedDependencyTask task (add_event ev s) =
  add_event ev (updateFailedDependencyTask task s).
Proof.
  unfold updateFailedDependencyTask. simpl.
  destruct (failedDependencyTask s), (failedTasks s) eqn:E,
    (dependencies task) as [deps|]; try done.
  clear E. revert s. induction deps as [|d deps IH]; intros s; [done|].
  simpl. rewrite <- IH. done.
Qed.

Lemma afterScan_cause (task : Task) (env : EnvDefinition) (s : State) :
  failedDependencyTask (afterScan task env s) =
  failedDependencyTask (updateFailedDependencyTask task s).
Proof. unfold afterScan. by rewrite update_add_event. Qed.

Lemma TaskStep_grows (task : Task) (env : EnvDefinition) (s : State)
    out s' :
  TaskStep task env s out s' -> grows taskEvent s s'.
Proof.
  pose proof (afterScan_fields task env s) as (Hf & Hw & Ht).
  assert (Hlog : extends taskEvent s (afterScan task env s)).
  { eexists. split; [exact Ht|]. by constructor. }
  assert (Hcause : forall c, failedDependencyTask s = Some c ->
                             failedDependencyTask (afterScan task env s) = Some c)
    by (intros c; apply afterScan_keeps_cause).
  assert (Hnil : exists l, failedTasks (afterScan task env s)
                           = failedTasks s ++ l)
    by (exists []; by rewrite app_nil_r).
  assert (Hx : forall ctx w, envsBuildContextAt (env_id env) = Some ctx ->
                 extends taskEvent s (afterExecuteHook task env w s)).
  { intros ctx w Hctx. eapply extends_trans; [exact Hlog|].
    exists [CallExecute task (env_id env)]. split; [done|].
    constructor; [|done]. simpl. by rewrite Hctx. }
  intros [c Hc| Hc Hctx | ctx e w Hc Hctx He | ctx r w Hc Hctx He Hne
         | ctx r w Hc Hctx He Hnil'].
  - split; [|split; [done|exact Hcause]].
    eapply extends_trans; [exact Hlog|]. by apply extends_add_event.
  - done.
  - split; [by eapply Hx|]. split; [done|exact Hcause].
  - split; [|split].
    + eapply extends_trans; [by eapply Hx|]. by apply extends_add_event.
    + exists [task]. simpl. by rewrite Hf.
    + exact Hcause.
  - split; [|split; [done|exact Hcause]].
    eapply extends_trans; [by eapply Hx|].
    eapply extends_trans; by apply extends_add_event.
Qed.

Lemma grows_add_event (K : Ev -> Prop) (ev : Ev) (s : State) :
  K ev -> grows K s (add_event ev s).
Proof.
  intros H. eapply frame_grows; [|by apply frame_add_event]. done.
Qed.

Lemma executeTask_grows (task : Task) (env : EnvDefinition) :
  respects (grows taskEvent) (executeTask task env).
Proof.
  intros s. destruct (executeTask task env s) as [out s'] eqn:E.
  apply executeTask_step in E. by eapply TaskStep_grows.
Qed.

Lemma runTasks_grows (queue : list Entry) :
  respects (grows taskEvent) (runTasks queue).
Proof.
  apply respects_mapSeries; try apply _.
  intros e. apply executeTask_grows.
Qed.

(** The whole run only adds to the trace and to the failed tasks, never
    replaces a recorded cause, and calls hooks only with environment
    ids the lookup finds. *)
Lemma execute_grows (queue : list Entry) :
  respects (grows registered) (execute queue).
Proof.
  unfold execute.
  apply respects_bind; try apply _.
  { intros s. eapply frame_grows; [apply preBuildEvent_registered|].
    apply executePreBuild_frame. }
  intros _. apply respects_bind; try apply _.
  { apply respects_emit. intros s. by apply grows_add_event. }
  intros _. apply respects_bind; try apply _.
  { intros s. eapply grows_weaken; [apply taskEvent_registered|].
    apply runTasks_grows. }
  intros outs. apply respects_bind; try apply _.
  { apply respects_emit. intros s. by apply grows_add_event. }
  intros _. apply respects_bind; try apply _.
  { intros s. eapply frame_grows; [apply postBuildEvent_registered|].
    apply executePostBuild_frame. }
  intros _. apply respects_ret; apply _.
Qed.

(** Once a cause is recorded every entry is skipped. *)
Lemma runTasks_all_skipped (queue : list Entry) (s : State) (cause : Task) :
  failedDependencyTask s = Some cause ->
  fst (runTasks queue s) = inr (replicate (length queue) None).
Proof.
  revert s. induction queue as [|e queue IH]; intros s Hc; [done|].
  unfold runTasks. simpl. unfold bind at 1.
  destruct (executeTask (qe_task e) (qe_env e) s) as [out s1] eqn:E.
  pose proof (executeTask_grows (qe_task e) (qe_env e) s) as (_ & _ & Hk).
  rewrite E in Hk. simpl in Hk. specialize (Hk _ Hc).
  apply executeTask_step in E.
  pose proof (afterScan_keeps_cause (qe_task e) (qe_env e) s cause Hc) as Hc'.
  destruct E; try congruence.
  unfold bind. specialize (IH _ Hk). unfold runTasks in IH.
  destruct (mapSeries _ queue _) as [[err|outs] s2]; simpl in *;
    congruence.
Qed.

Lemma find_task_Some (p : Task -> bool) (l : list Task) (t : Task) :
  find_task p l = Some t -> t ∈ l /\ p t = true.
Proof.
  induction l as [|x l IH]; simpl; [done|].
  destruct (p x) eqn:Hp.
  - intros [= <-]. split; [apply list_elem_of_here|done].
  - intros H. destruct (IH H). split; [by apply list_elem_of_further|done].
Qed.

(** ** The claims on a single entry *)

(** C6.  A dependency string matches a failed task exactly when the
    deserialized owner id equals the task's owner id and, if the string
    gives a (non-empty) name, that name equals the task's name; a
    nameless dependency matches on the owner id alone.  The cause that
    [scanDependency] records for the string is a failed task that
    matches in this sense. *)
Theorem dependency_matching_rule (dependency : string) (failedTask : Task) :
  let dep := deserializeId dependency in
  (matchesFailed dep failedTask = true <->
     aspectId dep = task_aspectId failedTask /\
     (truthy (name dep) = true -> name dep = task_name failedTask)) /\
  (truthy (name dep) = false ->
     (matchesFailed dep failedTask = true <->
        aspectId dep = task_aspectId failedTask)) /\
  (forall (s : State) t,
     failedDependencyTask (scanDependency s dependency) = Some t ->
     t ∈ failedTasks s /\ matchesFailed dep t = true).
Proof.
  intros dep. unfold matchesFailed. split; [|split].
  - destruct (truthy (name dep)); simpl.
    + case_bool_decide as Hn; simpl.
      * rewrite bool_decide_eq_true. split; [by intros ?|by intros []].
      * split; [done|]. intros [_ H]. by specialize (H eq_refl).
    + rewrite bool_decide_eq_true. split; [by intros ?|by intros []].
  - intros ->. simpl. by rewrite bool_decide_eq_true.
  - intros s t H. by apply find_task_Some in H.
Qed.

(** C10.  An executed task whose component results all have an absent
    or an empty [errors] succeeds: it is not added to the failed tasks
    and its result carries the artifacts the factory generates.  Absent
    and empty are classified alike. *)
Theorem absent_errors_mean_success (task : Task) (env : EnvDefinition)
    (s : State) ctx r w :
  failedDependencyTask (updateFailedDependencyTask task s) = None ->
  envsBuildContext !! env_id env = Some ctx ->
  execute_hook task ctx (world s) = (inr r, w) ->
  Forall (fun c => errors c = None \/ errors c = Some [])
    (btr_componentsResults r) ->
  (forall c, hasErrors {| component := c; errors := None |} =
             hasErrors {| component := c; errors := Some [] |}) /\
  exists s',
    executeTask task env s =
      (inr (Some (taskResults task env r
                    (Some (generate ctx (default [] (btr_artifacts r)) task))
                    (now (world s)) (now w))), s') /\
    failedTasks s' = failedTasks s /\
    failedDependencyTask s' = None.
Proof.
  intros Hc Hctx Hx Hall. split; [done|]. apply own_property in Hctx.
  assert (Hnil : List.filter hasErrors (btr_componentsResults r) = []).
  { induction Hall as [|c l [Hc1|Hc1] _ IH]; simpl; [done| |];
      unfold hasErrors; by rewrite Hc1. }
  rewrite <- afterScan_cause with (env := env) in Hc.
  destruct (executeTask task env s) as [out s'] eqn:E.
  apply executeTask_step in E.
  pose proof (afterScan_fields task env s) as (Hf & _ & _).
  destruct E as [c Hc'|Hc' Hn|c e w0 Hc' Hn Hx'|c r0 w0 Hc' Hn Hx' Hr
                |c r0 w0 Hc' Hn Hx' Hr]; simplify_eq;
    rewrite Hx in Hx'; simplify_eq.
  eexists. split; [reflexivity|]. simpl. by rewrite Hf.
Qed.


Lemma executeTask_skipped (task : Task) (env : EnvDefinition) (s : State)
    cause :
  failedDependencyTask (updateFailedDependencyTask task s) = Some cause ->
  executeTask task env s =
    (inr None,
     add_event (ConsoleWarningSkipped (env_id env) (taskIdOf task)
                  (taskIdOf cause))
       (afterScan task env s)).
Proof.
  intros Hc. rewrite <- (afterScan_cause task env s) in Hc.
  destruct (executeTask task env s) as [out s'] eqn:E.
  apply executeTask_step in E. by destruct E; simplify_eq.
Qed.

(** C4.  An entry is skipped exactly when a cause is recorded once
    [updateFailedDependencyTask] has run for it; the cause is then
    either the one that was recorded before or the one its own scan
    established; a skipped entry is reported and not executed; and a
    recorded cause stays as it is to the end of the run, every later
    entry being skipped. *)
Theorem skipped_iff_cause_recorded (task : Task) (env : EnvDefinition)
    (s : State) :
  let s1 := updateFailedDependencyTask task s in
  ((exists s', executeTask task env s = (inr None, s')) <->
     is_Some (failedDependencyTask s1)) /\
  (is_Some (failedDependencyTask s1) <->
     is_Some (failedDependencyTask s) \/
     (failedDependencyTask s = None /\ failedTasks s <> [] /\
      exists deps, dependencies task = Some deps /\
        is_Some (failedDependencyTask (fold_left scanDependency deps s)))) /\
  (forall cause, failedDependencyTask s1 = Some cause ->
     executeTask task env s =
       (inr None,
        add_event (ConsoleWarningSkipped (env_id env) (taskIdOf task)
                     (taskIdOf cause))
          (afterScan task env s))) /\
  (forall cause (rest : list Entry) (s2 : State),
     failedDependencyTask s2 = Some cause ->
     fst (runTasks rest s2) = inr (replicate (length rest) None) /\
     failedDependencyTask (snd (runTasks rest s2)) = Some cause /\
     failedDependencyTask (snd (execute rest s2)) = Some cause).
Proof.
  intros s1. subst s1.
  pose proof (executeTask_skipped task env s) as Hskip.
  split; [|split; [|split]].
  - split.
    + intros [s' E]. apply executeTask_step in E.
      rewrite <- (afterScan_cause task env s).
      inversion E; subst.
      match goal with H : failedDependencyTask _ = Some _ |- _ =>
        rewrite H end. by eexists.
    + intros [cause Hc]. eexists. by apply Hskip.
  - unfold updateFailedDependencyTask.
    destruct (failedDependencyTask s) as [c|] eqn:Hc.
    { split; [intros _; left; by eexists|by intros _; eexists]. }
    destruct (failedTasks s) as [|t l] eqn:Hf.
    { rewrite Hc. split; [by intros []|]. intros [[]|(_ & ? & _)]; done. }
    destruct (dependencies task) as [deps|] eqn:Hd.
    2:{ rewrite Hc. split; [by intros []|].
        intros [[]|(_ & _ & ? & ? & _)]; done. }
    split.
    + intros H. right. split; [done|]. split; [done|]. by exists deps.
    + intros [[]|(_ & _ & ? & [= <-] & H)]; done.
  - exact Hskip.
  - intros cause rest s2 Hc. split; [by eapply runTasks_all_skipped|].
    split.
    + by apply (runTasks_grows rest s2).
    + by apply (execute_grows rest s2).
Qed.

Lemma mapSeries_app {A B} (f : A -> M B) (l1 l2 : list A) (s : State) :
  mapSeries f (l1 ++ l2) s =
  match mapSeries f l1 s with
  | (inl e, s1) => (inl e, s1)
  | (inr bs1, s1) =>
      match mapSeries f l2 s1 with
      | (inl e, s2) => (inl e, s2)
      | (inr bs2, s2) => (inr (bs1 ++ bs2), s2)
      end
  end.
Proof.
  revert s. induction l1 as [|a l1 IH]; intros s; simpl.
  - unfold ret. by destruct (mapSeries f l2 s) as [[?|?] ?].
  - unfold bind at 1 3. destruct (f a s) as [[e|b] s1]; [done|].
    unfold bind, ret. rewrite IH.
    destruct (mapSeries f l1 s1) as [[e|bs1] s2]; [done|].
    by destruct (mapSeries f l2 s2) as [[e|bs2] s3].
Qed.

Lemma preBuildEntry_no_hook (e : Entry) (s : State) :
  preBuild (qe_task e) = None -> preBuildEntry e s = (inr tt, s).
Proof. intros H. unfold preBuildEntry. by rewrite H. Qed.

Lemma preBuildEntry_no_context (e : Entry) (s : State) :
  is_Some (preBuild (qe_task e)) ->
  envsBuildContextAt (env_id (qe_env e)) = None ->
  preBuildEntry e s =
    (inl (Error ("unable to find buildContext for "
                 ++ env_id (qe_env e))%string), s).
Proof.
  intros [h Hh] Hctx. unfold preBuildEntry, getBuildContext, bind, throw.
  by rewrite Hh, Hctx.
Qed.

(** C9, as the code has it.  In the pre-build phase the callback of an
    entry whose task has no [preBuild] returns at once, with no lookup
    in the registry and no change of state, so the phase runs as if the
    entry were not in the queue; when the environment id of such an
    entry is missing from the registry and names no property that the
    registry object inherits, the main phase throws for it if the entry
    is not skipped. *)
Theorem pre_build_lookup_only_with_hook (e : Entry) :
  preBuild (qe_task e) = None ->
  (forall s : State, preBuildEntry e s = (inr tt, s)) /\
  (forall (pre post : list Entry) (s : State),
     executePreBuild (pre ++ e :: post) s = executePreBuild (pre ++ post) s) /\
  (forall s : State,
     envsBuildContext !! env_id (qe_env e) = None ->
     objectPrototype !! env_id (qe_env e) = None ->
     failedDependencyTask (updateFailedDependencyTask (qe_task e) s) = None ->
     executeTask (qe_task e) (qe_env e) s =
       (inl (Error ("unable to find buildContext for "
                    ++ env_id (qe_env e))%string),
        afterScan (qe_task e) (qe_env e) s)).
Proof.
  intros Hno. split; [|split].
  - intros s. by apply preBuildEntry_no_hook.
  - intros pre post s. unfold executePreBuild, bind, emit.
    rewrite !mapSeries_app. simpl.
    destruct (mapSeries _ pre _) as [[err|bs] s1]; [done|].
    unfold bind at 1. rewrite preBuildEntry_no_hook by done.
    unfold bind, ret.
    by destruct (mapSeries _ post s1) as [[err|bs2] s2].
  - intros s Hctx Hproto Hc. apply inherited_property in Hctx.
    rewrite Hproto in Hctx.
    rewrite <- (afterScan_cause _ (qe_env e) s) in Hc.
    destruct (executeTask (qe_task e) (qe_env e) s) as [out s'] eqn:E.
    apply executeTask_step in E. destruct E; simplify_eq; congruence.
Qed.

(** ** The results of the main phase *)

Lemma filter_count_app {A} (p : A -> bool) (l1 l2 : list A) :
  length (List.filter p (l1 ++ l2)) =
  length (List.filter p l1) + length (List.filter p l2).
Proof. by rewrite List.filter_app, length_app. Qed.

(** Events outside the kind [p] do not change the count of [p]. *)
Lemma extends_count (K : Ev -> Prop) (p : Ev -> bool) (s s' : State) :
  (forall ev, K ev -> p ev = false) ->
  extends K s s' ->
  length (List.filter p (trace s')) = length (List.filter p (trace s)).
Proof.
  intros HK (evs & -> & HF). rewrite filter_count_app.
  assert (List.filter p evs = []) as ->; [|simpl; lia].
  induction HF as [|ev evs Hev _ IH]; simpl; [done|].
  by rewrite (HK _ Hev).
Qed.

Lemma compact_length {A} (outs : list (option A)) :
  length (compact outs) + length (List.filter isNull outs) = length outs.
Proof. induction outs as [|[a|] outs IH]; simpl; lia. Qed.

(** What one returning call of [executeTask] contributes. *)
Lemma TaskStep_outcome (task : Task) (env : EnvDefinition) (s : State)
    o s' :
  TaskStep task env s (inr o) s' ->
  skipped_count (trace s') =
    skipped_count (trace s) + length (List.filter isNull [o]) /\
  generate_count (trace s') =
    generate_count (trace s) + length (List.filter has_artifacts (compact [o])) /\
  match o with
  | None => is_Some (failedDependencyTask (afterScan task env s))
  | Some r =>
      failedDependencyTask (afterScan task env s) = None /\
      entry_of r = {| qe_env := env; qe_task := task |} /\
      (is_Some (artifacts r) <->
         List.filter hasErrors (componentsResults r) = []) /\
      (artifacts r = None -> task ∈ failedTasks s')
  end.
Proof.
  pose proof (afterScan_fields task env s) as (Hf & Hw & Ht).
  unfold skipped_count, generate_count.
  inversion 1; subst; simpl; rewrite Ht, ?filter_count_app; simpl.
  - split; [lia|]. split; [lia|]. by eexists.
  - split; [lia|]. split; [lia|]. split; [done|]. split; [done|].
    split; [split; [by intros []|done]|]. intros _.
    rewrite Hf. apply elem_of_app. right. apply list_elem_of_here.
  - split; [lia|]. split; [lia|]. split; [done|]. split; [done|].
    split; [|done]. split; [done|by eexists].
Qed.

Lemma runTasks_cons (e : Entry) (queue : list Entry) (s : State) :
  runTasks (e :: queue) s =
  match executeTask (qe_task e) (qe_env e) s with
  | (inl err, s1) => (inl err, s1)
  | (inr o, s1) =>
      match runTasks queue s1 with
      | (inl err, s2) => (inl err, s2)
      | (inr outs, s2) => (inr (o :: outs), s2)
      end
  end.
Proof.
  unfold runTasks. simpl. unfold bind at 1.
  destruct (executeTask _ _ s) as [[err|o] s1]; [done|].
  unfold bind, ret. by destruct (mapSeries _ queue s1) as [[err|outs] s2].
Qed.

Lemma runTasks_app (pre post : list Entry) (s : State) :
  runTasks (pre ++ post) s =
  match runTasks pre s with
  | (inl err, s1) => (inl err, s1)
  | (inr outs1, s1) =>
      match runTasks post s1 with
      | (inl err, s2) => (inl err, s2)
      | (inr outs2, s2) => (inr (outs1 ++ outs2), s2)
      end
  end.
Proof. apply mapSeries_app. Qed.

(** The array the main phase resolves to, entry by entry, and the
    reports it leaves in the trace. *)
Lemma runTasks_outcomes (queue : list Entry) (s : State) outs s' :
  runTasks queue s = (inr outs, s') ->
  Forall2 (fun e o =>
             match o with
             | None => True
             | Some r =>
                 entry_of r = e /\
                 (is_Some (artifacts r) <->
                    List.filter hasErrors (componentsResults r) = []) /\
                 (artifacts r = None -> tr_task r ∈ failedTasks s')
             end) queue outs /\
  skipped_count (trace s') =
    skipped_count (trace s) + length (List.filter isNull outs) /\
  generate_count (trace s') =
    generate_count (trace s) + length (List.filter has_artifacts (compact outs)).
Proof.
  revert s outs. induction queue as [|e queue IH]; intros s outs.
  { intros [= <- <-]. split; [constructor|]. simpl. lia. }
  rewrite runTasks_cons.
  destruct (executeTask _ _ s) as [[err|o] s1] eqn:E; [done|].
  destruct (runTasks queue s1) as [[err|outs'] s2] eqn:E'; [done|].
  intros [= <- <-].
  apply executeTask_step in E. apply TaskStep_outcome in E.
  destruct E as (Hs & Hg & Ho).
  destruct (IH _ _ E') as (IH1 & IH2 & IH3).
  pose proof (runTasks_grows queue s1) as (_ & (l & Hl) & _).
  rewrite E' in Hl. simpl in Hl.
  split; [|split].
  - constructor; [|done]. destruct o as [r|]; [|done].
    destruct Ho as (_ & He & Ha & Hfail).
    split; [by destruct e|]. split; [done|]. intros Hn.
    rewrite Hl. apply elem_of_app. left.
    specialize (Hfail Hn). destruct e. by injection He as _ ->.
  - rewrite IH2, Hs. destruct o; simpl; lia.
  - rewrite IH3, Hg. destruct o as [r|]; simpl; [|lia].
    destruct (has_artifacts r); simpl; lia.
Qed.

Lemma outcomes_sublist {P : Result -> Prop} (queue : list Entry) outs :
  Forall2 (fun e o =>
             match o with
             | None => True
             | Some r => entry_of r = e /\ P r
             end) queue outs ->
  map entry_of (compact outs) `sublist_of` queue /\
  Forall P (compact outs).
Proof.
  induction 1 as [|e o queue outs Ho _ [IH1 IH2]]; simpl.
  - split; constructor.
  - destruct o as [r|]; simpl.
    + destruct Ho as [<- HP]. split; [by apply sublist_skip|].
      by constructor.
    + split; [by apply sublist_cons|done].
Qed.

(** The phases a returning run went through. *)
Lemma execute_returns (queue : list Entry) (s : State) l s' :
  execute queue s = (inr l, s') ->
  exists s0 outs s2,
    executePreBuild queue s = (inr tt, s0) /\
    runTasks queue
      (add_event (CreateLongProcessLogger "running tasks" (length queue)) s0)
      = (inr outs, s2) /\
    l = {| trl_tasksQueue := queue; tasksResults := compact outs |} /\
    executePostBuild queue l (add_event LongProcessEnd s2) = (inr tt, s').
Proof.
  unfold execute. unfold bind at 1.
  destruct (executePreBuild queue s) as [[err|[]] s0] eqn:E0; [done|].
  unfold bind at 1. simpl. unfold bind at 1.
  destruct (runTasks queue _) as [[err|outs] s2] eqn:E1; [done|].
  unfold bind at 1. simpl. unfold bind, ret.
  destruct (executePostBuild queue _ _) as [[err|[]] s3] eqn:E2; [done|].
  intros [= <- <-]. by exists s0, outs, s2.
Qed.

Lemma preBuildEvent_quiet (ev : Ev) :
  preBuildEvent ev -> is_skip_warning ev = false /\ is_generate ev = false.
Proof. by destruct ev. Qed.

Lemma postBuildEvent_quiet (ev : Ev) :
  postBuildEvent ev -> is_skip_warning ev = false /\ is_generate ev = false.
Proof. by destruct ev. Qed.

(** The reports of the main phase are the reports of the run, and the
    failed tasks of the main phase are those of the run. *)
Lemma execute_counts (queue : list Entry) (w : W) l s' :
  execute queue (new_pipe w) = (inr l, s') ->
  exists s1 outs s2,
    runTasks queue s1 = (inr outs, s2) /\
    tasksResults l = compact outs /\
    failedTasks s1 = [] /\ failedDependencyTask s1 = None /\
    skipped_count (trace s1) = 0 /\ generate_count (trace s1) = 0 /\
    skipped_count (trace s') = skipped_count (trace s2) /\
    generate_count (trace s') = generate_count (trace s2) /\
    failedTasks s' = failedTasks s2.
Proof.
  intros H. apply execute_returns in H as (s0 & outs & s2 & H0 & H1 & -> & H2).
  pose proof (executePreBuild_frame queue (new_pipe w)) as (E0 & F0 & C0).
  rewrite H0 in E0, F0, C0. simpl in E0, F0, C0.
  pose proof (executePostBuild_frame queue
                {| trl_tasksQueue := queue; tasksResults := compact outs |}
                (add_event LongProcessEnd s2)) as (E2 & F2 & C2).
  rewrite H2 in E2, F2, C2. simpl in E2, F2, C2.
  eexists _, outs, s2. split; [exact H1|]. split; [done|].
  split; [done|]. split; [done|].
  unfold skipped_count, generate_count. simpl. rewrite !filter_count_app.
  rewrite (extends_count _ is_skip_warning _ _
             (fun ev H => proj1 (preBuildEvent_quiet ev H)) E0).
  rewrite (extends_count _ is_generate _ _
             (fun ev H => proj2 (preBuildEvent_quiet ev H)) E0).
  rewrite (extends_count _ is_skip_warning _ _
             (fun ev H => proj1 (postBuildEvent_quiet ev H)) E2).
  rewrite (extends_count _ is_generate _ _
             (fun ev H => proj2 (postBuildEvent_quiet ev H)) E2).
  simpl. rewrite !filter_count_app. simpl. by rewrite !Nat.add_0_r.
Qed.

(** ** The claims on a whole run *)

(** C5.  In a run that returns, the results and the entries reported as
    skipped add up to the queue: the list of results has the length of
    the queue minus the number of skip reports, and the entries the
    results were produced for are a subsequence of the queue.  A call of
    [executeTask] that takes the skip decision resolves to [null]. *)
Theorem skipped_entries_leave_no_result (queue : list Entry) (w : W) l s' :
  execute queue (new_pipe w) = (inr l, s') ->
  length (tasksResults l) + skipped_count (trace s') = length queue /\
  length (tasksResults l) = length queue - skipped_count (trace s') /\
  map entry_of (tasksResults l) `sublist_of` queue /\
  (forall task env (s : State),
     is_Some (failedDependencyTask (updateFailedDependencyTask task s)) ->
     fst (executeTask task env s) = inr None).
Proof.
  intros H.
  apply execute_counts in H
    as (s1 & outs & s2 & Hrun & -> & _ & _ & Hs1 & _ & -> & _ & _).
  apply runTasks_outcomes in Hrun as (Hall & Hskip & _).
  pose proof (Forall2_length _ _ _ Hall) as Hlen.
  pose proof (compact_length outs) as Hcomp.
  assert (Hsub : map entry_of (compact outs) `sublist_of` queue).
  { eapply (outcomes_sublist (P := fun _ => True)).
    eapply Forall2_impl; [exact Hall|]. intros e [r|]; [|done].
    by intros [? _]. }
  rewrite Hskip, Hs1. simpl.
  repeat split; try lia; try done.
  intros task env s [cause Hc]. by rewrite (executeTask_skipped _ _ _ cause).
Qed.

(** C3.  In the results of a run that returns, [artifacts] is defined
    exactly for the results none of whose component results has a
    non-empty [errors]; the task of a result without artifacts is among
    the failed tasks; and the artifact factory was called once per
    result with artifacts, a call that resolves to a result without
    artifacts making no call of the factory. *)
Theorem artifacts_iff_no_component_errors (queue : list Entry) (w : W)
    l s' :
  execute queue (new_pipe w) = (inr l, s') ->
  Forall (fun r =>
            (is_Some (artifacts r) <->
               List.filter hasErrors (componentsResults r) = []) /\
            (artifacts r = None -> tr_task r ∈ failedTasks s'))
    (tasksResults l) /\
  generate_count (trace s') =
    length (List.filter has_artifacts (tasksResults l)) /\
  (forall task env (s : State) r s1,
     executeTask task env s = (inr (Some r), s1) ->
     artifacts r = None ->
     generate_count (trace s1) = generate_count (trace s) /\
     task ∈ failedTasks s1).
Proof.
  intros H.
  apply execute_counts in H
    as (s1 & outs & s2 & Hrun & -> & _ & _ & _ & Hg1 & _ & -> & ->).
  apply runTasks_outcomes in Hrun as (Hall & _ & Hgen).
  split; [|split].
  - eapply (outcomes_sublist (P := fun r => _ /\ _)). exact Hall.
  - rewrite Hgen, Hg1. done.
  - intros task env s r s3 E Hnone.
    apply executeTask_step, TaskStep_outcome in E as (_ & Hg & _ & _ & _ & Hf).
    split; [|by apply Hf]. rewrite Hg. simpl.
    unfold has_artifacts. rewrite Hnone. simpl. lia.
Qed.

(** ** Runs in which nothing fails *)

Lemma update_no_failed (task : Task) (s : State) :
  failedTasks s = [] -> updateFailedDependencyTask task s = s.
Proof.
  intros H. unfold updateFailedDependencyTask. rewrite H.
  by destruct (failedDependencyTask s).
Qed.

(** When no result of the main phase carries an error, no entry was
    skipped and no task failed. *)
Lemma runTasks_no_errors (queue : list Entry) (s : State) outs s' :
  failedTasks s = [] -> failedDependencyTask s = None ->
  runTasks queue s = (inr outs, s') ->
  Forall noErrors (compact outs) ->
  map entry_of (compact outs) = queue /\
  Forall (fun r => is_Some (artifacts r)) (compact outs) /\
  failedTasks s' = [].
Proof.
  revert s outs.
  induction queue as [|e queue IH]; intros s outs Hf Hc.
  { by intros [= <- <-] _. }
  rewrite runTasks_cons.
  destruct (executeTask _ _ s) as [[err|o] s1] eqn:E; [done|].
  destruct (runTasks queue s1) as [[err|outs'] s2] eqn:E'; [done|].
  intros [= <- <-] Hall. apply executeTask_step in E.
  pose proof (afterScan_cause (qe_task e) (qe_env e) s) as Hscan.
  rewrite (update_no_failed _ _ Hf), Hc in Hscan.
  pose proof (afterScan_fields (qe_task e) (qe_env e) s) as (Hf' & _ & _).
  inversion E as [c Hc'| |? |ctx r w0 _ _ Hx Hne|ctx r w0 _ _ Hx Hnil];
    subst; [congruence|by inversion Hall|].
  simpl in Hall. apply Forall_cons in Hall as [_ Hall].
  eapply IH in E' as (IH1 & IH2 & IH3); [|by simpl; rewrite Hf'|done|done].
  simpl. split; [destruct e; simpl in *; by rewrite IH1|].
  split; [|done]. constructor; [by eexists|done].
Qed.

(** ** Runs that throw *)

Lemma mapSeries_throws {A B} (f : A -> M B) (P : A -> Exn -> Prop) :
  (forall a s err s', f a s = (inl err, s') -> P a err) ->
  forall (l : list A) (s : State) err s',
    mapSeries f l s = (inl err, s') -> exists a, a ∈ l /\ P a err.
Proof.
  intros Hf. induction l as [|a l IH]; intros s err s'; simpl; [done|].
  unfold bind at 1. destruct (f a s) as [[e|b] s1] eqn:E.
  - intros [= <- <-]. exists a. split; [apply list_elem_of_here|].
    by eapply Hf.
  - unfold bind, ret.
    destruct (mapSeries f l s1) as [[e|bs] s2] eqn:E'; [|done].
    intros [= <- <-]. destruct (IH _ _ _ E') as (a' & Ha' & HP).
    exists a'. split; [by apply list_elem_of_further|done].
Qed.

Lemma preBuildEntry_throws (e : Entry) (s : State) err s' :
  preBuildEntry e s = (inl err, s') -> throwsAt e err.
Proof.
  unfold preBuildEntry, getBuildContext, bind, ret, throw, emit, await.
  destruct (preBuild (qe_task e)) as [h|] eqn:Hh; [|done].
  destruct (envsBuildContextAt (env_id (qe_env e))) as [ctx|] eqn:Hctx.
  2:{ intros [= <- <-]. by left. }
  simpl. destruct (h ctx (world s)) as [r w1] eqn:Hr. intros [= -> <-].
  right. exists ctx. split; [done|]. left. exists h, (world s).
  by rewrite Hr.
Qed.

Lemma postBuildEntry_throws (l : ResultsList) (e : Entry) (s : State)
    err s' :
  postBuildEntry l e s = (inl err, s') -> throwsAt e err.
Proof.
  unfold postBuildEntry, getBuildContext, bind, ret, throw, emit, await.
  destruct (postBuild (qe_task e)) as [h|] eqn:Hh; [|done].
  destruct (envsBuildContextAt (env_id (qe_env e))) as [ctx|] eqn:Hctx.
  2:{ intros [= <- <-]. by left. }
  simpl. destruct (callPostBuild h ctx l (world s)) as [r w1] eqn:Hr.
  intros [= -> <-].
  right. exists ctx. split; [done|]. right. right. exists h, l, (world s).
  by rewrite Hr.
Qed.

Lemma executeTask_throws (e : Entry) (s : State) err s' :
  executeTask (qe_task e) (qe_env e) s = (inl err, s') -> throwsAt e err.
Proof.
  intros E. apply executeTask_step in E.
  inversion E as [|Hc Hctx|ctx e' w0 Hc Hctx Hx| |]; subst.
  - by left.
  - right. exists ctx. split; [done|]. right. left. exists (world s).
    by rewrite Hx.
Qed.

(** A run throws only where the lookup of an entry's environment id
    finds nothing or a hook of an entry rejects. *)
Lemma execute_throws (queue : list Entry) (s : State) err s' :
  execute queue s = (inl err, s') ->
  exists e, e ∈ queue /\ throwsAt e err.
Proof.
  unfold execute. unfold bind at 1.
  destruct (executePreBuild queue s) as [[err0|[]] s0] eqn:E0.
  { intros [= <- <-]. revert E0. unfold executePreBuild, bind, emit.
    destruct (mapSeries preBuildEntry queue _) as [[err1|bs] s1] eqn:E;
      [|done].
    intros [= <- <-].
    by apply (mapSeries_throws _ _ preBuildEntry_throws) in E. }
  unfold bind at 1. simpl. unfold bind at 1.
  destruct (runTasks queue _) as [[err1|outs] s2] eqn:E1.
  { intros [= <- <-].
    by apply (mapSeries_throws (fun e => executeTask (qe_task e) (qe_env e))
                _ executeTask_throws) in E1. }
  unfold bind at 1. simpl. unfold bind, ret.
  destruct (executePostBuild queue _ _) as [[err2|[]] s3] eqn:E2; [|done].
  intros [= <- <-]. revert E2. unfold executePostBuild, bind, emit.
  destruct (mapSeries (postBuildEntry _) queue _) as [[err3|bs] s4] eqn:E;
    [|done].
  intros [= <- <-].
  by apply (mapSeries_throws _ _ (postBuildEntry_throws _)) in E.
Qed.

(** C1.  A run of a fresh pipe either returns or throws, and it throws
    only where the lookup of an entry's environment id finds nothing or
    a hook of an entry rejects.  When the run returns and none of the
    results it returns has a component result with a non-empty [errors],
    it yields one result per queue entry, in queue order, each with
    artifacts defined, and no task was recorded as failed.  The
    hypothesis is on the results of this run: the same tasks may fail in
    another one. *)
Theorem no_failure_complete_results (queue : list Entry) (w : W) :
  (forall err s',
     execute queue (new_pipe w) = (inl err, s') ->
     exists e, e ∈ queue /\ throwsAt e err) /\
  (forall l s',
     execute queue (new_pipe w) = (inr l, s') ->
     Forall noErrors (tasksResults l) ->
     length (tasksResults l) = length queue /\
     map entry_of (tasksResults l) = queue /\
     Forall (fun r => is_Some (artifacts r)) (tasksResults l) /\
     failedTasks s' = []).
Proof.
  split; [intros err s'; apply execute_throws|].
  intros l s' H Hall.
  apply execute_counts in H
    as (s1 & outs & s2 & Hrun & Hl & Hf & Hc & _ & _ & _ & _ & Hf').
  rewrite Hl in Hall |- *. rewrite Hf'.
  destruct (runTasks_no_errors _ _ _ _ Hf Hc Hrun Hall) as (Hmap & Hart & Hnone).
  split; [|done]. by rewrite <- (length_map entry_of), Hmap.
Qed.

(** ** An entry whose environment id the lookup does not find *)

#[local] Instance extends_reflexive (K : Ev -> Prop) : Reflexive (extends K).
Proof. intros s. apply extends_refl. Qed.

#[local] Instance extends_transitive (K : Ev -> Prop) :
  Transitive (extends K).
Proof. intros s1 s2 s3. apply extends_trans. Qed.

Lemma executeOf_mono (q1 q2 : list Entry) (ev : Ev) :
  (forall e, e ∈ q1 -> e ∈ q2) -> executeOf q1 ev -> executeOf q2 ev.
Proof.
  intros Hq. destruct ev; simpl; try done.
  intros (e & He & H). exists e. auto.
Qed.

(** One call of [executeTask] calls no [execute] hook but its own; it
    calls none when it skips the entry or finds no build context. *)
Lemma TaskStep_executeOf (task : Task) (env : EnvDefinition) (s : State)
    out s' :
  TaskStep task env s out s' ->
  extends (executeOf [ {| qe_env := env; qe_task := task |} ]) s s' /\
  (envsBuildContextAt (env_id env) = None ->
   extends (executeOf []) s s' /\
   match out with
   | inl _ => True
   | inr o => o = None /\ is_Some (failedDependencyTask s')
   end).
Proof.
  pose proof (afterScan_fields task env s) as (Hf & Hw & Ht).
  assert (Hlog : forall K : Ev -> Prop,
             K (LogProgress (env_id env) (taskNameOf task)) ->
             extends K s (afterScan task env s)).
  { intros K HK. eexists. split; [exact Ht|]. by constructor. }
  assert (Hx : forall w,
             extends (executeOf [ {| qe_env := env; qe_task := task |} ]) s
               (afterExecuteHook task env w s)).
  { intros w. etrans; [by apply Hlog|].
    exists [CallExecute task (env_id env)]. split; [done|].
    constructor; [|done]. eexists. split; [apply list_elem_of_here|done]. }
  intros [c Hc| Hc Hctx | ctx e w Hc Hctx He | ctx r w Hc Hctx He Hne
         | ctx r w Hc Hctx He Hnil'].
  - split; [etrans; [by apply Hlog|by apply extends_add_event]|].
    intros _. split; [etrans; [by apply Hlog|by apply extends_add_event]|].
    split; [done|]. simpl. by rewrite Hc.
  - split; [by apply Hlog|]. intros _. split; [by apply Hlog|done].
  - split; [apply Hx|congruence].
  - split; [|congruence]. etrans; [apply Hx|by apply extends_add_event].
  - split; [|congruence]. etrans; [apply Hx|].
    etrans; by apply extends_add_event.
Qed.

Lemma runTasks_executeOf (queue : list Entry) :
  respects (extends (executeOf queue)) (runTasks queue).
Proof.
  induction queue as [|e queue IH]; intros s; [reflexivity|].
  rewrite runTasks_cons.
  destruct (executeTask _ _ s) as [out s1] eqn:E.
  apply executeTask_step, TaskStep_executeOf in E as [E _].
  assert (extends (executeOf (e :: queue)) s s1) as E1.
  { eapply extends_weaken; [|exact E]. intros ev. apply executeOf_mono.
    intros e' ->%list_elem_of_singleton. destruct e. apply list_elem_of_here. }
  destruct out as [err|o]; [done|].
  specialize (IH s1).
  assert (extends (executeOf (e :: queue)) s1 (snd (runTasks queue s1))) as E2.
  { eapply extends_weaken; [|exact IH]. intros ev. apply executeOf_mono.
    intros e' He'. by apply list_elem_of_further. }
  destruct (runTasks queue s1) as [[err|outs] s2]; simpl in *; by etrans.
Qed.

(** With a cause recorded the main phase calls no [execute] hook. *)
Lemma runTasks_skipping (queue : list Entry) (s : State) :
  is_Some (failedDependencyTask s) ->
  extends (executeOf []) s (snd (runTasks queue s)).
Proof.
  revert s. induction queue as [|e queue IH]; intros s [c Hc]; [reflexivity|].
  rewrite runTasks_cons.
  destruct (executeTask _ _ s) as [out s1] eqn:E.
  pose proof (executeTask_grows (qe_task e) (qe_env e) s) as (_ & _ & Hk).
  rewrite E in Hk. simpl in Hk. specialize (Hk _ Hc).
  apply executeTask_step in E.
  pose proof (afterScan_keeps_cause (qe_task e) (qe_env e) s c Hc) as Hc'.
  pose proof (afterScan_fields (qe_task e) (qe_env e) s) as (_ & _ & Ht).
  destruct E; try congruence.
  assert (Hs1 : extends (executeOf []) s
                  (add_event (ConsoleWarningSkipped (env_id (qe_env e))
                                (taskIdOf (qe_task e)) (taskIdOf cause))
                     (afterScan (qe_task e) (qe_env e) s))).
  { eexists. split; [simpl; by rewrite Ht, <- app_assoc|].
    by repeat constructor. }
  specialize (IH _ (ex_intro _ c Hk)).
  destruct (runTasks queue _) as [[err|outs] s2]; simpl in *; by etrans.
Qed.

(** The main phase of a queue with an entry whose environment id the
    lookup does not find calls the [execute] hooks of earlier entries
    only. *)
Lemma runTasks_missing_env (pre post : list Entry) (e : Entry) (s : State) :
  envsBuildContextAt (env_id (qe_env e)) = None ->
  extends (executeOf pre) s (snd (runTasks (pre ++ e :: post) s)).
Proof.
  intros Hctx. pose proof (runTasks_executeOf pre s) as Hpre.
  rewrite runTasks_app.
  destruct (runTasks pre s) as [[err|outs] s1]; simpl in *; [done|].
  rewrite runTasks_cons.
  destruct (executeTask _ _ s1) as [out s2] eqn:E.
  apply executeTask_step, TaskStep_executeOf in E as [_ E].
  destruct (E Hctx) as [E1 E2].
  assert (extends (executeOf pre) s1 s2) as E1'.
  { eapply extends_weaken; [|exact E1]. intros ev. apply executeOf_mono.
    by intros e' ?%elem_of_nil. }
  destruct out as [err|o]; simpl; [by etrans|].
  destruct E2 as [-> Hc].
  pose proof (runTasks_skipping post s2 Hc) as E3.
  assert (extends (executeOf pre) s2 (snd (runTasks post s2))) as E3'.
  { eapply extends_weaken; [|exact E3]. intros ev. apply executeOf_mono.
    by intros e' ?%elem_of_nil. }
  destruct (runTasks post s2) as [[err|outs'] s3]; simpl in *;
    etrans; [exact Hpre|by etrans|exact Hpre|by etrans].
Qed.

Lemma execute_missing_env (pre post : list Entry) (e : Entry) :
  envsBuildContextAt (env_id (qe_env e)) = None ->
  respects (extends (executeOf pre)) (execute (pre ++ e :: post)).
Proof.
  intros Hctx. unfold execute.
  apply respects_bind; try apply _.
  { intros s. destruct (executePreBuild_frame (pre ++ e :: post) s) as [E _].
    eapply extends_weaken; [|exact E]. by intros []. }
  intros _. apply respects_bind; try apply _.
  { apply respects_emit. intros s. by apply extends_add_event. }
  intros _. apply respects_bind; try apply _.
  { intros s. by apply runTasks_missing_env. }
  intros outs. apply respects_bind; try apply _.
  { apply respects_emit. intros s. by apply extends_add_event. }
  intros _. apply respects_bind; try apply _.
  { intros s. destruct (executePostBuild_frame (pre ++ e :: post)
      {| trl_tasksQueue := pre ++ e :: post; tasksResults := compact outs |} s)
      as [E _].
    eapply extends_weaken; [|exact E]. by intros []. }
  intros _. apply respects_ret; apply _.
Qed.

(** A pre-build phase that meets a hook whose environment id the lookup
    does not find stops there. *)
Lemma execute_missing_env_preBuild (pre post : list Entry) (e : Entry)
    (s : State) :
  envsBuildContextAt (env_id (qe_env e)) = None ->
  is_Some (preBuild (qe_task e)) ->
  exists err,
    execute (pre ++ e :: post) s = (inl err, snd (preBuildUpTo pre s)).
Proof.
  intros Hctx Hh.
  change (snd (preBuildUpTo pre s)) with
    (snd (mapSeries preBuildEntry pre
            (add_event (SetStatusLine "executing pre-build for all tasks") s))).
  unfold execute, executePreBuild, bind, emit. rewrite mapSeries_app.
  destruct (mapSeries _ pre _) as [[err|bs] s1]; [by eexists|].
  simpl. unfold bind. rewrite preBuildEntry_no_context by done.
  by eexists.
Qed.

(** A main phase that returns has reported as skipped every entry
    whose environment id the lookup does not find. *)
Lemma runTasks_missing_env_skipped (queue : list Entry) (s : State) outs s'
    (e : Entry) :
  runTasks queue s = (inr outs, s') ->
  e ∈ queue ->
  envsBuildContextAt (env_id (qe_env e)) = None ->
  exists cause : Task,
    ConsoleWarningSkipped (env_id (qe_env e)) (taskIdOf (qe_task e))
      (taskIdOf cause) ∈ trace s'.
Proof.
  revert s outs. induction queue as [|e0 queue IH]; intros s outs.
  { by intros _ ?%elem_of_nil. }
  rewrite runTasks_cons.
  destruct (executeTask _ _ s) as [[err|o] s1] eqn:E; [done|].
  destruct (runTasks queue s1) as [[err|outs'] s2] eqn:E'; [done|].
  intros [= <- <-] [->|Hin]%elem_of_cons Hctx; [|by eapply IH].
  pose proof (runTasks_grows queue s1) as ((evs & Hevs & _) & _).
  rewrite E' in Hevs. simpl in Hevs.
  apply executeTask_step in E.
  inversion E; subst; try congruence.
  eexists. rewrite Hevs. apply elem_of_app. left. simpl.
  apply elem_of_app. right. apply list_elem_of_here.
Qed.

(** A post-build phase that returns found the environment of every
    entry with a [postBuild] hook. *)
Lemma postBuild_returns (l : ResultsList) (queue : list Entry) (s : State)
    bs s' (e : Entry) :
  mapSeries (postBuildEntry l) queue s = (inr bs, s') ->
  e ∈ queue ->
  envsBuildContextAt (env_id (qe_env e)) = None ->
  postBuild (qe_task e) = None.
Proof.
  revert s bs. induction queue as [|e0 queue IH]; intros s bs.
  { by intros _ ?%elem_of_nil. }
  simpl. unfold bind at 1.
  destruct (postBuildEntry l e0 s) as [[err|b] s1] eqn:E; [done|].
  unfold bind, ret.
  destruct (mapSeries _ queue s1) as [[err|bs'] s2] eqn:E'; [done|].
  intros [= <- <-] [->|Hin]%elem_of_cons Hctx; [|by eapply IH].
  revert E. unfold postBuildEntry, getBuildContext, bind, throw.
  destruct (postBuild (qe_task e0)); [|done]. by rewrite Hctx.
Qed.

(** C7, as the code has it.  For a queue with an entry whose
    environment id is neither a key of the registry nor the name of a
    property the registry object inherits: no hook is ever called with
    that environment id, and every [execute] hook called is one of an
    earlier entry; if the entry's task has a [preBuild] hook, the run
    throws in the pre-build phase, in the state the callbacks of the
    earlier entries left; and if the run returns, the task has neither a
    [preBuild] nor a [postBuild] hook and the entry was reported as
    skipped. *)
Theorem missing_env_throws_or_is_skipped (pre post : list Entry) (e : Entry)
    (w : W) :
  envsBuildContext !! env_id (qe_env e) = None ->
  objectPrototype !! env_id (qe_env e) = None ->
  let run := execute (pre ++ e :: post) (new_pipe w) in
  (forall ev, ev ∈ trace (snd run) ->
     hook_env ev <> Some (env_id (qe_env e)) /\ executeOf pre ev) /\
  (is_Some (preBuild (qe_task e)) ->
     exists err, run = (inl err, snd (preBuildUpTo pre (new_pipe w)))) /\
  (forall l s', run = (inr l, s') ->
     preBuild (qe_task e) = None /\
     postBuild (qe_task e) = None /\
     exists cause : Task,
       ConsoleWarningSkipped (env_id (qe_env e)) (taskIdOf (qe_task e))
         (taskIdOf cause) ∈ trace s').
Proof.
  intros Hown Hproto run. subst run.
  assert (Hctx : envsBuildContextAt (env_id (qe_env e)) = None)
    by (by rewrite inherited_property).
  split; [|split].
  - intros ev Hev.
    destruct (execute_grows (pre ++ e :: post) (new_pipe w))
      as ((evs & Hevs & Hreg) & _).
    destruct (execute_missing_env pre post e Hctx (new_pipe w))
      as (evs' & Hevs' & Hex).
    simpl in Hevs, Hevs'. split.
    + rewrite Hevs in Hev. rewrite Forall_forall in Hreg.
      intros Hh. destruct (Hreg _ Hev _ Hh) as [ctx Hsome]. congruence.
    + rewrite Hevs' in Hev. rewrite Forall_forall in Hex. by apply Hex.
  - intros Hh. by apply execute_missing_env_preBuild.
  - intros l s' Hrun.
    assert (Hpre : preBuild (qe_task e) = None).
    { destruct (preBuild (qe_task e)) as [h|] eqn:Hh; [|done].
      destruct (execute_missing_env_preBuild pre post e (new_pipe w) Hctx)
        as [err Herr]; [by rewrite Hh|]. congruence. }
    assert (Hin : e ∈ pre ++ e :: post).
    { apply elem_of_app. right. apply list_elem_of_here. }
    apply execute_returns in Hrun as (s0 & outs & s2 & _ & Hmain & -> & Hpost).
    split; [done|]. split.
    + revert Hpost. unfold executePostBuild. unfold bind at 1. simpl.
      unfold bind at 1.
      destruct (mapSeries _ (pre ++ e :: post) _) as [[err|bs] s3] eqn:E;
        [done|].
      intros _. by eapply postBuild_returns.
    + destruct (runTasks_missing_env_skipped _ _ _ _ e Hmain Hin Hctx)
        as [cause Hc].
      exists cause.
      destruct (executePostBuild_frame (pre ++ e :: post)
        {| trl_tasksQueue := pre ++ e :: post; tasksResults := compact outs |}
        (add_event LongProcessEnd s2)) as ((evs & Hevs & _) & _).
      rewrite Hpost in Hevs. simpl in Hevs. rewrite Hevs.
      apply elem_of_app. left. apply elem_of_app. by left.
Qed.

End Properties.

(** * The statements on the concrete pipeline *)

Section OnDemo.

Import Demo.
Local Open Scope list_scope.

(** C2.  [updateFailedDependencyTask] assigns the result of [find] once
    per dependency, so the cause it leaves is the one of the last
    dependency.  With [A] failed and the dependencies [A], [B] it leaves
    no cause, where the first match of the scan is [A]; in the run of
    [queueLastDependency] task [D] is therefore executed, not skipped. *)
Theorem update_keeps_last_dependency_only :
  failedDependencyTask (updateFailedDependencyTask taskD afterA) = None /\
  spec_first_match (fun d t => matchesFailed (deserializeId d) t)
    ["A"; "B"]%string (failedTasks afterA) = Some taskA /\
  (exists l s',
     execute queueLastDependency (new_pipe 0) = (inr l, s') /\
     map entry_of (tasksResults l) = queueLastDependency /\
     skipped_count (trace s') = 0 /\
     failedTasks s' = [taskA]).
Proof.
  split; [reflexivity|]. split; [reflexivity|].
  eexists _, _. split; [vm_compute; reflexivity|]. by split.
Qed.

(** C7, refuted as stated.  In [queueGhostSkipped] the entry of [B] has
    an unregistered environment and the run throws nothing; in
    [queueGhostFirst] the run throws for the first entry only after the
    [preBuild] hook of the later entry has been called; in
    [queueConstructor] the environment id is absent from the registry
    and names an inherited property: the [execute] hook of the entry is
    called with it and the run returns. *)
Lemma missing_env_counterexample :
  envs !! env_id envMissing = None /\
  entry taskB envMissing ∈ queueGhostSkipped /\
  (forall err s', execute queueGhostSkipped (new_pipe 0) <> (inl err, s')) /\
  entry taskT envMissing ∈ queueGhostFirst /\
  execute queueGhostFirst (new_pipe 0) =
    (inl (Error "unable to find buildContext for ghost"),
     {| failedTasks := []; failedDependencyTask := None; world := 1;
        trace :=
          [ SetStatusLine "executing pre-build for all tasks";
            CallPreBuild taskC "env1";
            ConsoleSuccess;
            CreateLongProcessLogger "running tasks" 2;
            LogProgress "ghost" "tester" ] |}) /\
  envs !! env_id envConstructor = None /\
  entry taskT envConstructor ∈ queueConstructor /\
  (exists l s',
     execute queueConstructor (new_pipe 0) = (inr l, s') /\
     map entry_of (tasksResults l) = queueConstructor /\
     CallExecute taskT "constructor" ∈ trace s').
Proof.
  split; [reflexivity|]. split; [by repeat constructor|].
  split; [intros err s' H; vm_compute in H; discriminate H|].
  split; [by repeat constructor|]. split; [reflexivity|].
  split; [reflexivity|]. split; [by repeat constructor|].
  eexists _, _. split; [vm_compute; reflexivity|]. split; [reflexivity|].
  by repeat constructor.
Qed.


(** C9, refuted as stated.  The entry of [B] in [queueGhostSkipped] has
    no [preBuild] hook and an unregistered environment; the pre-build
    phase returns, and the main phase does not detect the missing
    environment either: the entry is skipped and the run returns.  Nor
    is the environment [constructor] of [queueConstructor] detected,
    though no entry is skipped there. *)
Lemma missing_env_undetected_counterexample :
  preBuild (qe_task (entry taskB envMissing)) = None /\
  envs !! env_id (qe_env (entry taskB envMissing)) = None /\
  entry taskB envMissing ∈ queueGhostSkipped /\
  fst (executePreBuild queueGhostSkipped (new_pipe 0)) = inr tt /\
  (forall err s', execute queueGhostSkipped (new_pipe 0) <> (inl err, s')) /\
  preBuild (qe_task (entry taskT envConstructor)) = None /\
  envs !! env_id (qe_env (entry taskT envConstructor)) = None /\
  entry taskT envConstructor ∈ queueConstructor /\
  skipped_count (trace (snd (execute queueConstructor (new_pipe 0)))) = 0 /\
  (forall err s', execute queueConstructor (new_pipe 0) <> (inl err, s')).
Proof.
  split; [reflexivity|]. split; [reflexivity|].
  split; [by repeat constructor|]. split; [reflexivity|].
  split; [intros err s' H; vm_compute in H; discriminate H|].
  split; [reflexivity|]. split; [reflexivity|].
  split; [by repeat constructor|]. split; [reflexivity|].
  intros err s' H. vm_compute in H. discriminate H.
Qed.

(** ** The statements with hypotheses, at concrete inputs *)

Lemma no_failure_complete_results_witness :
  (exists l s',
     execute queueFlaky (new_pipe 1) = (inr l, s') /\
     Forall noErrors (tasksResults l) /\
     length (tasksResults l) = length queueFlaky /\
     map entry_of (tasksResults l) = queueFlaky /\
     Forall (fun r => is_Some (artifacts r)) (tasksResults l) /\
     failedTasks s' = []) /\
  failedTasks (snd (execute queueFlaky (new_pipe 0))) = [taskF] /\
  (exists e,
     e ∈ queueGhostFirst /\
     throwsAt callPostBuild envs objectPrototype e
       (Error "unable to find buildContext for ghost")).
Proof.
  pose proof (no_failure_complete_results now serializeId deserializeId
                generate callPostBuild envs objectPrototype) as H.
  split; [|split; [reflexivity|]].
  - eexists _, _. split; [vm_compute; reflexivity|].
    assert (Hall : Forall noErrors
                     (tasksResults
                        (match fst (execute queueFlaky (new_pipe 1)) with
                         | inr l => l
                         | inl _ =>
                             {| trl_tasksQueue := []; tasksResults := [] |}
                         end)))
      by (repeat (constructor; [reflexivity|]); constructor).
    split; [exact Hall|].
    exact (proj2 (H queueFlaky 1) _ _ eq_refl Hall).
  - exact (proj1 (H queueGhostFirst 0) _ _ eq_refl).
Defined.

Lemma artifacts_iff_no_component_errors_witness :
  exists l s',
    execute queueMixed (new_pipe 0) = (inr l, s') /\
    map has_artifacts (tasksResults l) = [true; false; true] /\
    failedTasks s' = [taskA] /\
    generate_count (trace s') =
      length (List.filter has_artifacts (tasksResults l)).
Proof.
  eexists _, _. split; [vm_compute; reflexivity|].
  split; [reflexivity|]. split; [reflexivity|].
  eapply (artifacts_iff_no_component_errors now serializeId deserializeId
            generate callPostBuild envs objectPrototype queueMixed 0).
  vm_compute; reflexivity.
Defined.

Lemma skipped_entries_leave_no_result_witness :
  exists l s',
    execute queueCascade (new_pipe 0) = (inr l, s') /\
    skipped_count (trace s') = 2 /\
    length (tasksResults l) + skipped_count (trace s') = length queueCascade /\
    map entry_of (tasksResults l) `sublist_of` queueCascade.
Proof.
  eexists _, _. split; [vm_compute; reflexivity|]. split; [reflexivity|].
  pose proof (skipped_entries_leave_no_result now serializeId deserializeId
                generate callPostBuild
                  envs objectPrototype queueCascade 0 _ _ eq_refl)
    as (H1 & _ & H3 & _).
  split; [exact H1|exact H3].
Defined.

Lemma missing_env_throws_or_is_skipped_witness :
  envs !! env_id (qe_env (entry taskB envMissing)) = None /\
  objectPrototype !! env_id (qe_env (entry taskB envMissing)) = None /\
  forall ev,
    ev ∈ trace (snd (execute ([entry taskA env1] ++
                              entry taskB envMissing :: [entry taskT env1])
                       (new_pipe 0))) ->
    hook_env ev <> Some "ghost" /\ executeOf [entry taskA env1] ev.
Proof.
  split; [reflexivity|]. split; [reflexivity|].
  apply (missing_env_throws_or_is_skipped now serializeId deserializeId
           generate callPostBuild envs objectPrototype [entry taskA env1]
           [entry taskT env1] (entry taskB envMissing) 0);
    reflexivity.
Defined.


Lemma pre_build_lookup_only_with_hook_witness :
  preBuild (qe_task (entry taskT envMissing)) = None /\
  executePreBuild queueGhostFirst (new_pipe 0) =
    executePreBuild [entry taskC env1] (new_pipe 0) /\
  envs !! env_id envMissing = None /\
  objectPrototype !! env_id envMissing = None /\
  fst (executeTask taskT envMissing (new_pipe 0)) =
    inl (Error "unable to find buildContext for ghost").
Proof.
  split; [reflexivity|].
  destruct (pre_build_lookup_only_with_hook now serializeId deserializeId
              generate envs objectPrototype (entry taskT envMissing) eq_refl)
    as (_ & H & Hmain).
  split; [exact (H [] [entry taskC env1] (new_pipe 0))|].
  split; [reflexivity|]. split; [reflexivity|].
  pose proof (Hmain (new_pipe 0) eq_refl eq_refl eq_refl) as Hthrow.
  simpl in Hthrow. unfold executeTask. by rewrite Hthrow.
Defined.

Lemma absent_errors_mean_success_witness :
  failedDependencyTask (updateFailedDependencyTask taskT afterA) = None /\
  envs !! env_id env1 = Some ["button"; "card"]%string /\
  execute_hook taskT ["button"; "card"]%string (world afterA)
    = (inr ok_result, 6) /\
  Forall (fun c => errors c = None \/ errors c = Some [])
    (btr_componentsResults ok_result) /\
  exists r s',
    executeTask taskT env1 afterA = (inr (Some r), s') /\
    artifacts r = Some ["dist/button"; "dist/card"]%string /\
    failedTasks s' = [taskA].
Proof.
  assert (Hall : Forall (fun c => errors c = None \/ errors c = Some [])
                   (btr_componentsResults ok_result))
    by (constructor; [by left|constructor; [by right|constructor]]).
  split; [reflexivity|]. split; [reflexivity|]. split; [reflexivity|].
  split; [exact Hall|].
  destruct (absent_errors_mean_success now serializeId deserializeId
              generate envs objectPrototype taskT env1 afterA _ ok_result 6
              eq_refl eq_refl eq_refl Hall)
    as (_ & s' & Hrun & Hf & _).
  eexists _, s'. split; [exact Hrun|]. split; [reflexivity|exact Hf].
Defined.

End OnDemo.

(** * Further properties of the orchestrator *)

Section Lifecycle_properties.

Local Open Scope list_scope.

Context {W BuildContext ArtifactDefinition Artifacts PostBuildHook : Type}.

Abbreviation Task := (@BuildTask W BuildContext ArtifactDefinition PostBuildHook).
Abbreviation Entry := (@QueueEntry W BuildContext ArtifactDefinition PostBuildHook).
Abbreviation State := (@PipeState W BuildContext ArtifactDefinition PostBuildHook).
Abbreviation Ev := (@Event W BuildContext ArtifactDefinition PostBuildHook).
Abbreviation Result :=
  (@TaskResults W BuildContext ArtifactDefinition Artifacts PostBuildHook).
Abbreviation ResultsList :=
  (@TaskResultsList W BuildContext ArtifactDefinition Artifacts PostBuildHook).

Variable now : W -> Z.
Variable serializeId : TaskId -> string.
Variable deserializeId : string -> TaskId.
Variable generate :
  BuildContext -> list ArtifactDefinition -> Task -> Artifacts.
Variable callPostBuild :
  PostBuildHook -> BuildContext -> ResultsList -> @Async W unit.
Variable envsBuildContext : gmap string BuildContext.
Variable objectPrototype : gmap string BuildContext.

Abbreviation envsBuildContextAt :=
  (envsBuildContextAt envsBuildContext objectPrototype).
Abbreviation taskIdOf := (taskIdOf serializeId).
Abbreviation taskNameOf := (taskNameOf serializeId).
Abbreviation scanDependency := (scanDependency deserializeId).
Abbreviation updateFailedDependencyTask :=
  (updateFailedDependencyTask deserializeId).
Abbreviation getBuildContext :=
  (getBuildContext envsBuildContext objectPrototype).
Abbreviation afterScan := (afterScan serializeId deserializeId).
Abbreviation afterExecuteHook := (afterExecuteHook serializeId deserializeId).
Abbreviation executeTask :=
  (executeTask now serializeId deserializeId generate envsBuildContext
     objectPrototype).
Abbreviation TaskStep :=
  (TaskStep now serializeId deserializeId generate envsBuildContext
     objectPrototype).
Abbreviation preBuildEntry := (preBuildEntry envsBuildContext objectPrototype).
Abbreviation postBuildEntry :=
  (postBuildEntry callPostBuild envsBuildContext objectPrototype).
Abbreviation executePreBuild :=
  (executePreBuild envsBuildContext objectPrototype).
Abbreviation executePostBuild :=
  (executePostBuild callPostBuild envsBuildContext objectPrototype).
Abbreviation runTasks :=
  (runTasks now serializeId deserializeId generate envsBuildContext
     objectPrototype).
Abbreviation execute :=
  (execute now serializeId deserializeId generate callPostBuild
     envsBuildContext objectPrototype).
Abbreviation preBuildEvent := (preBuildEvent envsBuildContext objectPrototype).
Abbreviation postBuildEvent :=
  (postBuildEvent envsBuildContext objectPrototype).
Abbreviation taskEvent := (taskEvent envsBuildContext objectPrototype).
Abbreviation longProcessProtocol := (longProcessProtocol serializeId).
Abbreviation causeInvariant := (causeInvariant serializeId).

(** ** The three phases of a run *)

Lemma execute_phases (queue : list Entry) (s : State) :
  match executePreBuild queue s with
  | (inl err, s0) => execute queue s = (inl err, s0)
  | (inr _, s0) =>
      match runTasks queue
              (add_event
                 (CreateLongProcessLogger "running tasks" (length queue)) s0)
      with
      | (inl err, s2) => execute queue s = (inl err, s2)
      | (inr outs, s2) =>
          let l := {| trl_tasksQueue := queue;
                      tasksResults := compact outs |} in
          match executePostBuild queue l (add_event LongProcessEnd s2) with
          | (inl err, s4) => execute queue s = (inl err, s4)
          | (inr _, s4) => execute queue s = (inr l, s4)
          end
      end
  end.
Proof.
  destruct (executePreBuild queue s) as [[err|[]] s0] eqn:E0.
  { unfold execute, bind. by rewrite E0. }
  destruct (runTasks queue _) as [[err|outs] s2] eqn:E1.
  { unfold execute, bind. rewrite E0. simpl. by rewrite E1. }
  simpl.
  destruct (executePostBuild queue _ _) as [[err|[]] s4] eqn:E2;
    unfold execute, bind; rewrite E0; simpl; rewrite E1; simpl;
    by rewrite E2.
Qed.

(** ** The hooks of a run, in order *)

Lemma hookCalls_app (a b : list Ev) :
  hookCalls (a ++ b) = hookCalls a ++ hookCalls b.
Proof. apply List.filter_app. Qed.

Lemma preBuildEntry_calls (e : Entry) (s : State) b s' :
  preBuildEntry e s = (inr b, s') ->
  hookCalls (trace s') = hookCalls (trace s) ++ preBuildCalls [e].
Proof.
  unfold preBuildEntry, getBuildContext, bind, ret, throw, emit, await,
    preBuildCalls.
  simpl. destruct (preBuild (qe_task e)) as [h|].
  2:{ intros [= _ <-]. by rewrite app_nil_r. }
  destruct (envsBuildContextAt (env_id (qe_env e))) as [ctx|]; [|done].
  simpl. destruct (h ctx (world s)) as [[err|[]] w]; [done|].
  intros [= _ <-]. simpl. by rewrite hookCalls_app.
Qed.

Lemma preBuildSeries_calls (queue : list Entry) (s : State) bs s' :
  mapSeries preBuildEntry queue s = (inr bs, s') ->
  hookCalls (trace s') = hookCalls (trace s) ++ preBuildCalls queue.
Proof.
  revert s bs. induction queue as [|e queue IH]; intros s bs; simpl.
  { intros [= _ <-]. by rewrite app_nil_r. }
  unfold bind at 1.
  destruct (preBuildEntry e s) as [[err|b] s1] eqn:E; [done|].
  unfold bind, ret.
  destruct (mapSeries _ queue s1) as [[err|bs'] s2] eqn:E'; [done|].
  intros [= _ <-]. rewrite (IH _ _ E'), (preBuildEntry_calls _ _ _ _ E).
  unfold preBuildCalls. simpl. by rewrite app_nil_r, <- !app_assoc.
Qed.

Lemma postBuildEntry_calls (l : ResultsList) (e : Entry) (s : State) b s' :
  postBuildEntry l e s = (inr b, s') ->
  hookCalls (trace s') = hookCalls (trace s) ++ postBuildCalls [e].
Proof.
  unfold postBuildEntry, getBuildContext, bind, ret, throw, emit, await,
    postBuildCalls.
  simpl. destruct (postBuild (qe_task e)) as [h|].
  2:{ intros [= _ <-]. by rewrite app_nil_r. }
  destruct (envsBuildContextAt (env_id (qe_env e))) as [ctx|]; [|done].
  simpl. destruct (callPostBuild h ctx l (world s)) as [[err|[]] w]; [done|].
  intros [= _ <-]. simpl. by rewrite hookCalls_app.
Qed.

Lemma postBuildSeries_calls (l : ResultsList) (queue : list Entry)
    (s : State) bs s' :
  mapSeries (postBuildEntry l) queue s = (inr bs, s') ->
  hookCalls (trace s') = hookCalls (trace s) ++ postBuildCalls queue.
Proof.
  revert s bs. induction queue as [|e queue IH]; intros s bs; simpl.
  { intros [= _ <-]. by rewrite app_nil_r. }
  unfold bind at 1.
  destruct (postBuildEntry l e s) as [[err|b] s1] eqn:E; [done|].
  unfold bind, ret.
  destruct (mapSeries _ queue s1) as [[err|bs'] s2] eqn:E'; [done|].
  intros [= _ <-]. rewrite (IH _ _ E'), (postBuildEntry_calls _ _ _ _ _ E).
  unfold postBuildCalls. simpl. by rewrite app_nil_r, <- !app_assoc.
Qed.

Lemma TaskStep_calls (task : Task) (env : EnvDefinition) (s : State) o s' :
  TaskStep task env s (inr o) s' ->
  hookCalls (trace s') = hookCalls (trace s) ++ executeCalls (compact [o]).
Proof.
  pose proof (afterScan_fields serializeId deserializeId task env s)
    as (_ & _ & Ht).
  inversion 1; subst; simpl; rewrite Ht, ?hookCalls_app; simpl;
    by rewrite ?app_nil_r.
Qed.

Lemma runTasks_calls (queue : list Entry) (s : State) outs s' :
  runTasks queue s = (inr outs, s') ->
  hookCalls (trace s') = hookCalls (trace s) ++ executeCalls (compact outs).
Proof.
  revert s outs. induction queue as [|e queue IH]; intros s outs.
  { intros [= <- <-]. by rewrite app_nil_r. }
  rewrite runTasks_cons.
  destruct (executeTask _ _ s) as [[err|o] s1] eqn:E; [done|].
  destruct (runTasks queue s1) as [[err|outs'] s2] eqn:E'; [done|].
  intros [= <- <-]. apply executeTask_step, TaskStep_calls in E.
  rewrite (IH _ _ E'), E. unfold executeCalls.
  destruct o; simpl; by rewrite <- ?app_assoc, ?app_nil_r.
Qed.

Lemma executePreBuild_calls (queue : list Entry) (s : State) s' :
  executePreBuild queue s = (inr tt, s') ->
  hookCalls (trace s') = hookCalls (trace s) ++ preBuildCalls queue.
Proof.
  unfold executePreBuild, bind, emit.
  destruct (mapSeries _ queue _) as [[err|bs] s1] eqn:E; [done|].
  intros [= <-]. apply preBuildSeries_calls in E. simpl in *.
  by rewrite !hookCalls_app, E, hookCalls_app, !app_nil_r.
Qed.

Lemma executePostBuild_calls (l : ResultsList) (queue : list Entry)
    (s : State) s' :
  executePostBuild queue l s = (inr tt, s') ->
  hookCalls (trace s') = hookCalls (trace s) ++ postBuildCalls queue.
Proof.
  unfold executePostBuild, bind, emit.
  destruct (mapSeries _ queue _) as [[err|bs] s1] eqn:E; [done|].
  intros [= <-]. apply postBuildSeries_calls in E. simpl in *.
  by rewrite !hookCalls_app, E, hookCalls_app, !app_nil_r.
Qed.

(** X1.  In a run that returns, the hooks are called phase by phase and
    in queue order: first [preBuild] of every entry that has the hook,
    then [execute] once for each result, then [postBuild] of every entry
    that has the hook, and no hook is called besides. *)
Theorem hooks_called_in_lifecycle_order (queue : list Entry) (s : State)
    l s' :
  execute queue s = (inr l, s') ->
  hookCalls (trace s') =
    hookCalls (trace s) ++ preBuildCalls queue
    ++ executeCalls (tasksResults l) ++ postBuildCalls queue.
Proof.
  intros H.
  apply execute_returns in H as (s0 & outs & s2 & Hpre & Hmain & -> & Hpost).
  apply executePreBuild_calls in Hpre. apply runTasks_calls in Hmain.
  apply executePostBuild_calls in Hpost. simpl in *.
  rewrite Hpost, hookCalls_app, Hmain, hookCalls_app, Hpre. simpl.
  by rewrite !app_nil_r, <- !app_assoc.
Qed.

(** ** Results come for a prefix of the queue *)

Lemma compact_somes {A} (rs : list A) (k : nat) :
  compact (map Some rs ++ replicate k None) = rs.
Proof.
  induction rs as [|r rs IH]; simpl; [|by rewrite IH].
  induction k as [|k IHk]; simpl; done.
Qed.

Lemma skipReports_app (a b : list Ev) :
  skipReports (a ++ b) = skipReports a ++ skipReports b.
Proof. apply flat_map_app. Qed.

(** With a cause recorded, the main phase reports every entry as skipped. *)
Lemma runTasks_reports_all (queue : list Entry) (s : State) (cause : Task) :
  failedDependencyTask s = Some cause ->
  skipReports (trace (snd (runTasks queue s))) =
    skipReports (trace s)
    ++ map (fun e => (env_id (qe_env e), taskIdOf (qe_task e))) queue.
Proof.
  revert s. induction queue as [|e queue IH]; intros s Hc.
  { simpl. by rewrite app_nil_r. }
  rewrite runTasks_cons.
  rewrite (executeTask_skipped now serializeId deserializeId generate
             envsBuildContext objectPrototype (qe_task e) (qe_env e) s cause)
    by (by rewrite (update_keeps_cause deserializeId _ _ cause)).
  pose proof (afterScan_fields serializeId deserializeId (qe_task e)
                (qe_env e) s) as (_ & _ & Ht).
  pose proof (afterScan_keeps_cause serializeId deserializeId (qe_task e)
                (qe_env e) s cause Hc) as Hc'.
  match goal with |- context [runTasks queue ?s1] =>
    specialize (IH s1 Hc'); destruct (runTasks queue s1) as [[err|outs] s2]
  end; simpl in *; rewrite IH, Ht, !skipReports_app; simpl;
    by rewrite app_nil_r, <- app_assoc.
Qed.

Lemma runTasks_prefix (queue : list Entry) (s : State) outs s' :
  runTasks queue s = (inr outs, s') ->
  exists rs,
    outs = map Some rs ++ replicate (length queue - length rs) None /\
    map entry_of rs = take (length rs) queue /\
    skipReports (trace s') =
      skipReports (trace s)
      ++ map (fun e => (env_id (qe_env e), taskIdOf (qe_task e)))
           (drop (length rs) queue).
Proof.
  revert s outs. induction queue as [|e queue IH]; intros s outs.
  { intros [= <- <-]. exists []. simpl. by rewrite app_nil_r. }
  intros Hrun. pose proof Hrun as Hrun'. revert Hrun'.
  rewrite runTasks_cons.
  destruct (executeTask _ _ s) as [[err|o] s1] eqn:E; [done|].
  destruct (runTasks queue s1) as [[err|outs'] s2] eqn:E'; [done|].
  intros [= <- <-]. apply executeTask_step in E.
  pose proof (afterScan_fields serializeId deserializeId (qe_task e)
                (qe_env e) s) as (_ & _ & Ht).
  inversion E as [c Hc| | |ctx r w0 _ _ Hx Hne|ctx r w0 _ _ Hx Hnil]; subst.
  - exists []. simpl.
    match type of E' with runTasks queue ?s1 = _ =>
      pose proof (runTasks_all_skipped now serializeId deserializeId generate
                    envsBuildContext objectPrototype queue s1 c Hc) as Hall;
      pose proof (runTasks_reports_all queue s1 c Hc) as Hrep
    end.
    rewrite E' in Hall, Hrep. simpl in Hall, Hrep. injection Hall as ->.
    split; [done|]. split; [done|].
    rewrite Hrep. simpl. rewrite Ht, !skipReports_app. simpl.
    by rewrite app_nil_r, <- app_assoc.
  - destruct (IH _ _ E') as (rs & -> & Hmap & Hrep). eexists (_ :: rs).
    simpl. split; [done|]. split; [destruct e; simpl; by rewrite Hmap|].
    rewrite Hrep. simpl. rewrite Ht, !skipReports_app. simpl.
    by rewrite !app_nil_r.
  - destruct (IH _ _ E') as (rs & -> & Hmap & Hrep). eexists (_ :: rs).
    simpl. split; [done|]. split; [destruct e; simpl; by rewrite Hmap|].
    rewrite Hrep. simpl. rewrite Ht, !skipReports_app. simpl.
    by rewrite !app_nil_r.
Qed.

Lemma frame_skipReports (K : Ev -> Prop) (s s' : State) :
  (forall ev, K ev -> is_skip_warning ev = false) ->
  extends K s s' -> skipReports (trace s') = skipReports (trace s).
Proof.
  intros HK (evs & -> & HF). rewrite skipReports_app.
  assert (skipReports evs = []) as ->; [|by rewrite app_nil_r].
  induction HF as [|ev evs Hev _ IH]; simpl; [done|].
  specialize (HK _ Hev). by destruct ev.
Qed.

(** X2.  In a run that returns, the results are those of a prefix of the
    queue, entry for entry, and the rest of the queue, a suffix, is
    reported as skipped in queue order: once one entry is skipped no
    later entry is executed. *)
Theorem results_for_a_prefix_skips_for_the_rest (queue : list Entry)
    (s : State) l s' :
  execute queue s = (inr l, s') ->
  let n := length (tasksResults l) in
  map entry_of (tasksResults l) = take n queue /\
  skipReports (trace s') =
    skipReports (trace s)
    ++ map (fun e => (env_id (qe_env e), taskIdOf (qe_task e)))
         (drop n queue).
Proof.
  intros H.
  apply execute_returns in H as (s0 & outs & s2 & Hpre & Hmain & -> & Hpost).
  apply runTasks_prefix in Hmain as (rs & -> & Hmap & Hrep).
  simpl. rewrite compact_somes. split; [done|].
  pose proof (executePreBuild_frame
      envsBuildContext objectPrototype queue s) as [E0 _].
  rewrite Hpre in E0. simpl in E0.
  match type of Hpost with executePostBuild _ ?l0 ?s3 = _ =>
    pose proof (executePostBuild_frame callPostBuild
        envsBuildContext objectPrototype queue
                  l0 s3) as [E2 _]
  end.
  rewrite Hpost in E2. simpl in E2.
  rewrite (frame_skipReports _ _ _
             (fun ev H => proj1 (postBuildEvent_quiet
                 envsBuildContext objectPrototype ev H)) E2).
  simpl. rewrite skipReports_app, Hrep. simpl. rewrite skipReports_app.
  rewrite (frame_skipReports _ _ _
             (fun ev H => proj1 (preBuildEvent_quiet
                 envsBuildContext objectPrototype ev H)) E0).
  simpl. by rewrite !app_nil_r.
Qed.

(** ** The failed tasks and the cause *)

Lemma TaskStep_failed (task : Task) (env : EnvDefinition) (s : State) o s' :
  TaskStep task env s (inr o) s' ->
  failedTasks s' =
    failedTasks s
    ++ map tr_task (List.filter (fun r => negb (has_artifacts r)) (compact [o])).
Proof.
  pose proof (afterScan_fields serializeId deserializeId task env s)
    as (Hf & _ & _).
  inversion 1; subst; simpl; rewrite Hf; by rewrite ?app_nil_r.
Qed.

Lemma runTasks_failed (queue : list Entry) (s : State) outs s' :
  runTasks queue s = (inr outs, s') ->
  failedTasks s' =
    failedTasks s
    ++ map tr_task (List.filter (fun r => negb (has_artifacts r)) (compact outs)).
Proof.
  revert s outs. induction queue as [|e queue IH]; intros s outs.
  { intros [= <- <-]. by rewrite app_nil_r. }
  rewrite runTasks_cons.
  destruct (executeTask _ _ s) as [[err|o] s1] eqn:E; [done|].
  destruct (runTasks queue s1) as [[err|outs'] s2] eqn:E'; [done|].
  intros [= <- <-]. apply executeTask_step, TaskStep_failed in E.
  rewrite (IH _ _ E'), E. destruct o as [r|]; simpl.
  - destruct (has_artifacts r); simpl; by rewrite <- ?app_assoc, ?app_nil_r.
  - by rewrite app_nil_r.
Qed.

(** X3.  In a run that returns, the tasks added to [failedTasks] are
    exactly the tasks of the results without artifacts, in the order of
    the results; the pre-build and post-build phases add none. *)
Theorem failed_tasks_are_the_results_without_artifacts (queue : list Entry)
    (s : State) l s' :
  execute queue s = (inr l, s') ->
  failedTasks s' =
    failedTasks s
    ++ map tr_task
         (List.filter (fun r => negb (has_artifacts r)) (tasksResults l)).
Proof.
  intros H.
  apply execute_returns in H as (s0 & outs & s2 & Hpre & Hmain & -> & Hpost).
  pose proof (executePreBuild_frame
      envsBuildContext objectPrototype queue s) as (_ & F0 & _).
  rewrite Hpre in F0. simpl in F0.
  match type of Hpost with executePostBuild _ ?l0 ?s3 = _ =>
    pose proof (executePostBuild_frame callPostBuild
        envsBuildContext objectPrototype queue
                  l0 s3) as (_ & F2 & _)
  end.
  rewrite Hpost in F2. simpl in F2.
  apply runTasks_failed in Hmain. simpl in *. by rewrite F2, Hmain, F0.
Qed.

Lemma scan_cause_failed (deps : list string) (s : State) (c : Task) :
  failedDependencyTask s = None ->
  failedDependencyTask (fold_left scanDependency deps s) = Some c ->
  c ∈ failedTasks s.
Proof.
  destruct deps as [|d deps _] using rev_ind; simpl; [congruence|].
  intros _. rewrite (scan_last deserializeId). intros H.
  by apply find_task_Some in H as [H _].
Qed.

Lemma update_cause_failed (task : Task) (s : State) (c : Task) :
  failedDependencyTask s = None ->
  failedDependencyTask (updateFailedDependencyTask task s) = Some c ->
  c ∈ failedTasks s.
Proof.
  intros Hn. unfold updateFailedDependencyTask. rewrite Hn.
  destruct (failedTasks s) as [|t l] eqn:E; [congruence|].
  destruct (dependencies task) as [deps|]; [|congruence].
  rewrite <- E. by apply scan_cause_failed.
Qed.

Lemma no_reports_cite (tr : list Ev) (P : string -> Prop) :
  skipped_count tr = 0 ->
  Forall (fun ev => forall envId taskId failedTaskId,
            ev = ConsoleWarningSkipped envId taskId failedTaskId ->
            P failedTaskId) tr.
Proof.
  unfold skipped_count. induction tr as [|ev tr IH]; simpl; [constructor|].
  destruct ev; simpl; try done; intros H; constructor; auto; by intros.
Qed.

(** Events other than skip reports, added without touching the cause
    and without dropping failed tasks, keep the invariant. *)
Lemma causeInvariant_extend (s s1 : State) (evs : list Ev) :
  causeInvariant s ->
  failedDependencyTask s1 = failedDependencyTask s ->
  (forall c, c ∈ failedTasks s -> c ∈ failedTasks s1) ->
  trace s1 = trace s ++ evs ->
  Forall (fun ev => is_skip_warning ev = false) evs ->
  causeInvariant s1.
Proof.
  unfold causeInvariant, skipped_count. intros Hinv -> Hsub -> Hq.
  assert (List.filter is_skip_warning evs = []) as Hnil.
  { induction Hq as [|ev evs Hev _ IH]; simpl; [done|]. by rewrite Hev. }
  destruct (failedDependencyTask s) as [c|].
  - destruct Hinv as [Hin Hall]. split; [by apply Hsub|].
    apply Forall_app. split; [done|].
    eapply Forall_impl; [exact Hq|]. intros ev Hev ? ? ? ->. done.
  - by rewrite List.filter_app, length_app, Hnil, Hinv.
Qed.

Lemma afterScan_invariant (task : Task) (env : EnvDefinition) (s : State) :
  causeInvariant s -> causeInvariant (afterScan task env s).
Proof.
  intros Hinv.
  pose proof (afterScan_fields serializeId deserializeId task env s)
    as (Hf & _ & Ht).
  pose proof (afterScan_cause serializeId deserializeId task env s) as Hc.
  destruct (failedDependencyTask s) as [c|] eqn:Hs.
  - eapply causeInvariant_extend; [exact Hinv| | |exact Ht|by repeat constructor].
    + rewrite Hs. by eapply afterScan_keeps_cause.
    + intros c'. by rewrite Hf.
  - unfold causeInvariant in *. rewrite Hs in Hinv. rewrite Hc.
    destruct (failedDependencyTask (updateFailedDependencyTask task s))
      as [c|] eqn:Hu.
    + rewrite Hf, Ht. split; [by eapply update_cause_failed|].
      apply no_reports_cite. unfold skipped_count in *.
      by rewrite List.filter_app, length_app, Hinv.
    + rewrite Ht. unfold skipped_count in *.
      by rewrite List.filter_app, length_app, Hinv.
Qed.

Lemma TaskStep_invariant (task : Task) (env : EnvDefinition) (s : State)
    out s' :
  TaskStep task env s out s' -> causeInvariant s -> causeInvariant s'.
Proof.
  intros Hstep Hinv. apply (afterScan_invariant task env) in Hinv.
  inversion Hstep as [c Hc| Hc Hctx | ctx e w Hc Hctx He | ctx r w Hc Hctx He Hne
                     | ctx r w Hc Hctx He Hnil]; subst; [|done| | |].
  - unfold causeInvariant in *. simpl. rewrite Hc in *.
    destruct Hinv as [Hin Hall]. split; [done|].
    apply Forall_app. split; [done|]. constructor; [|done].
    by intros ? ? ? [= _ _ ->].
  - eapply causeInvariant_extend; [exact Hinv|done|done|done|].
    by repeat constructor.
  - eapply causeInvariant_extend; [exact Hinv|done| |simpl; by rewrite <- app_assoc|].
    + intros c Hin. simpl. apply elem_of_app. by left.
    + by repeat constructor.
  - eapply causeInvariant_extend;
      [exact Hinv|done|done|simpl; by rewrite <- !app_assoc|].
    by repeat constructor.
Qed.

#[local] Instance keeps_invariant_refl :
  Reflexive (fun s s' : State => causeInvariant s -> causeInvariant s').
Proof. by intros s. Qed.

#[local] Instance keeps_invariant_trans :
  Transitive (fun s s' : State => causeInvariant s -> causeInvariant s').
Proof. intros s1 s2 s3 H1 H2 H. auto. Qed.

Lemma frame_invariant (K : Ev -> Prop) (s s' : State) :
  (forall ev, K ev -> is_skip_warning ev = false) ->
  frame K s s' -> causeInvariant s -> causeInvariant s'.
Proof.
  intros HK ((evs & Ht & HF) & Hf & Hc) Hinv.
  eapply causeInvariant_extend; [exact Hinv|done| |exact Ht|].
  - intros c. by rewrite Hf.
  - eapply Forall_impl; [exact HF|exact HK].
Qed.

(** X4.  The cause and the skip reports stay consistent through a run,
    whether it returns or throws: a recorded cause is one of the failed
    tasks and every skip report cites that same task; with no cause
    recorded there is no skip report. *)
Theorem cause_is_a_failed_task_cited_by_every_skip (queue : list Entry)
    (s : State) :
  causeInvariant s -> causeInvariant (snd (execute queue s)).
Proof.
  revert s.
  change (respects (fun s s' : State => causeInvariant s -> causeInvariant s')
            (execute queue)).
  unfold execute.
  apply respects_bind; try apply _.
  { intros s. eapply frame_invariant; [|apply executePreBuild_frame].
    intros ev H. by destruct (preBuildEvent_quiet
        envsBuildContext objectPrototype ev H). }
  intros _. apply respects_bind; try apply _.
  { apply respects_emit. intros s.
    by apply (frame_invariant (fun ev => is_skip_warning ev = false)),
      frame_add_event. }
  intros _. apply respects_bind; try apply _.
  { apply respects_mapSeries; try apply _. intros e s.
    destruct (executeTask (qe_task e) (qe_env e) s) as [out s1] eqn:E.
    apply executeTask_step in E. by eapply TaskStep_invariant. }
  intros outs. apply respects_bind; try apply _.
  { apply respects_emit. intros s.
    by apply (frame_invariant (fun ev => is_skip_warning ev = false)),
      frame_add_event. }
  intros _. apply respects_bind; try apply _.
  { intros s. eapply frame_invariant; [|apply executePostBuild_frame].
    intros ev H. by destruct (postBuildEvent_quiet
        envsBuildContext objectPrototype ev H). }
  intros _. apply respects_ret; apply _.
Qed.

(** ** The long-process logger *)

Lemma extends_filter (K : Ev -> Prop) (p : Ev -> bool) (s s' : State) :
  (forall ev, K ev -> p ev = false) ->
  extends K s s' ->
  List.filter p (trace s') = List.filter p (trace s).
Proof.
  intros HK (evs & -> & HF). rewrite List.filter_app.
  assert (List.filter p evs = []) as ->; [|by rewrite app_nil_r].
  induction HF as [|ev evs Hev _ IH]; simpl; [done|]. by rewrite (HK _ Hev).
Qed.

(** Every call of [executeTask] logs one progress line, whatever it does
    next. *)
Lemma TaskStep_progress (task : Task) (env : EnvDefinition) (s : State)
    out s' :
  TaskStep task env s out s' ->
  List.filter is_long_process (trace s') =
    List.filter is_long_process (trace s)
    ++ [LogProgress (env_id env) (taskNameOf task)].
Proof.
  pose proof (afterScan_fields serializeId deserializeId task env s)
    as (_ & _ & Ht).
  inversion 1; subst; simpl; rewrite ?Ht, ?List.filter_app; simpl;
    by rewrite ?app_nil_r.
Qed.

Lemma runTasks_progress (queue : list Entry) (s : State) :
  exists k,
    k <= length queue /\
    List.filter is_long_process (trace (snd (runTasks queue s))) =
      List.filter is_long_process (trace s)
      ++ map (fun e => LogProgress (env_id (qe_env e)) (taskNameOf (qe_task e)))
           (take k queue) /\
    (forall outs, fst (runTasks queue s) = inr outs -> k = length queue).
Proof.
  revert s. induction queue as [|e queue IH]; intros s.
  { exists 0. simpl. by rewrite app_nil_r. }
  rewrite runTasks_cons.
  destruct (executeTask _ _ s) as [out s1] eqn:E.
  apply executeTask_step, TaskStep_progress in E.
  destruct out as [err|o].
  { exists 1. simpl. rewrite ?take_0. split; [lia|]. by split. }
  destruct (IH s1) as (k & Hk & Hlp & Hret). exists (S k).
  destruct (runTasks queue s1) as [[err|outs'] s2]; simpl in *;
    (split; [lia|]); rewrite Hlp, E, <- app_assoc; (split; [done|]);
    [done|]. intros outs _. by rewrite (Hret outs').
Qed.

Lemma preBuildEvent_not_long_process (ev : Ev) :
  preBuildEvent ev -> is_long_process ev = false.
Proof. by destruct ev. Qed.

Lemma postBuildEvent_not_long_process (ev : Ev) :
  postBuildEvent ev -> is_long_process ev = false.
Proof. by destruct ev. Qed.

(** X6.  The long-process logger is driven by a fixed protocol: it is
    created with the length of the queue, gets one progress line per
    entry in queue order, skipped or not, and is ended after the last
    entry.  A run of a fresh pipe that returns goes through the whole
    protocol; a run that throws stops somewhere in it, and has reached
    [end] only if every entry has logged its progress. *)
Theorem long_process_logger_protocol (queue : list Entry) (w : W) :
  let run := execute queue (new_pipe w) in
  List.filter is_long_process (trace (snd run))
    `prefix_of` longProcessProtocol queue /\
  (forall l, fst run = inr l ->
     List.filter is_long_process (trace (snd run)) = longProcessProtocol queue) /\
  (LongProcessEnd ∈ trace (snd run) ->
     List.filter is_long_process (trace (snd run)) = longProcessProtocol queue).
Proof.
  intros run. subst run.
  assert (Hcases :
    List.filter is_long_process
      (trace (snd (execute queue (new_pipe w)))) = longProcessProtocol queue \/
    (exists k,
       List.filter is_long_process
         (trace (snd (execute queue (new_pipe w)))) =
       take k (longProcessProtocol queue) /\ k <= S (length queue) /\
       (forall l, fst (execute queue (new_pipe w)) <> inr l))).
  { pose proof (execute_phases queue (new_pipe w)) as Hrun.
    pose proof (executePreBuild_frame
        envsBuildContext objectPrototype queue (new_pipe w))
      as [E0 _].
    apply (extends_filter _ _ _ _ preBuildEvent_not_long_process) in E0.
    destruct (executePreBuild queue (new_pipe w)) as [[err|[]] s0].
    { right. exists 0. rewrite Hrun. simpl in *. rewrite E0.
      split; [done|]. split; [lia|done]. }
    simpl in E0.
    match type of Hrun with context [runTasks queue ?s1] =>
      destruct (runTasks_progress queue s1) as (k & Hk & Hlp & Hret);
      destruct (runTasks queue s1) as [[err|outs] s2]
    end; simpl in Hlp, Hret.
    { right. exists (S k). rewrite Hrun. simpl.
      rewrite Hlp, List.filter_app, E0. simpl.
      rewrite take_app_le by (by rewrite length_map).
      rewrite <- fmap_take. split; [done|]. split; [lia|done]. }
    left. specialize (Hret outs eq_refl). subst k. rewrite firstn_all in Hlp.
    cbv zeta in Hrun.
    match type of Hrun with context [executePostBuild queue ?l0 ?s3] =>
      pose proof (executePostBuild_frame callPostBuild
          envsBuildContext objectPrototype queue
                    l0 s3) as [E2 _];
      apply (extends_filter _ _ _ _ postBuildEvent_not_long_process) in E2;
      destruct (executePostBuild queue l0 s3) as [[err|[]] s4]
    end; rewrite Hrun; simpl in *;
      rewrite E2, List.filter_app, Hlp, List.filter_app, E0;
      simpl; by rewrite <- ?app_assoc. }
  split; [|split].
  - destruct Hcases as [->|(k & -> & _)]; [done|apply prefix_take].
  - intros l Hl. destruct Hcases as [->|(k & _ & _ & Hno)]; [done|].
    by destruct (Hno l).
  - intros Hend. destruct Hcases as [->|(k & Hk & Hle & _)]; [done|].
    exfalso.
    assert (LongProcessEnd ∈ take k (@longProcessProtocol queue)) as Hin.
    { rewrite <- Hk. apply list_elem_of_In, filter_In. split; [|done].
      by apply list_elem_of_In. }
    revert Hin. unfold longProcessProtocol. destruct k as [|k]; simpl.
    { by intros ?%elem_of_nil. }
    rewrite take_app_le by (rewrite length_map; lia).
    intros [[=]|Hin]%elem_of_cons.
    apply (subseteq_take k) in Hin.
    by apply list_elem_of_fmap in Hin as (e & [=] & _).
Qed.

(** ** Phases, for every run *)

Lemma constant_sorted (c : nat) (l : list nat) :
  Forall (fun n => n = c) l -> StronglySorted le l.
Proof.
  induction 1 as [|n l -> Hl IH]; constructor; [done|].
  eapply Forall_impl; [exact Hl|]. simpl. lia.
Qed.

Lemma phase_of_kind (K : Ev -> Prop) (c : nat) (evs : list Ev) :
  (forall ev n, K ev -> phase_of ev = Some n -> n = c) ->
  Forall K evs -> Forall (fun n => n = c) (omap phase_of evs).
Proof.
  intros HK. induction 1 as [|ev evs Hev _ IH]; simpl; [constructor|].
  destruct (phase_of ev) as [n|] eqn:Hp; [|done].
  constructor; [by eapply HK|done].
Qed.

Lemma phases_sorted (a b c : list Ev) :
  Forall preBuildEvent a -> Forall taskEvent b -> Forall postBuildEvent c ->
  StronglySorted le (omap phase_of (a ++ b ++ c)).
Proof.
  intros Ha Hb Hc.
  apply (phase_of_kind _ 0) in Ha; [|intros [] n; simpl; intros ? ?; by simplify_eq].
  apply (phase_of_kind _ 1) in Hb; [|intros [] n; simpl; intros ? ?; by simplify_eq].
  apply (phase_of_kind _ 2) in Hc; [|intros [] n; simpl; intros ? ?; by simplify_eq].
  rewrite !omap_app. rewrite Forall_forall in Ha, Hb, Hc.
  apply StronglySorted_app_2; [|by eapply constant_sorted, Forall_forall|].
  - intros x y Hx [Hy|Hy]%elem_of_app.
    + rewrite (Ha _ Hx), (Hb _ Hy). lia.
    + rewrite (Ha _ Hx), (Hc _ Hy). lia.
  - apply StronglySorted_app_2; [|by eapply constant_sorted, Forall_forall..].
    intros x y Hx Hy. rewrite (Hb _ Hx), (Hc _ Hy). lia.
Qed.

(** X7.  In every run of a fresh pipe, also one that throws, the hooks
    are called phase by phase: no [preBuild] after an [execute], and no
    [preBuild] or [execute] after a [postBuild]. *)
Theorem hooks_never_go_back_a_phase (queue : list Entry) (w : W) :
  StronglySorted le
    (omap phase_of (trace (snd (execute queue (new_pipe w))))).
Proof.
  pose proof (execute_phases queue (new_pipe w)) as Hrun.
  pose proof (executePreBuild_frame
      envsBuildContext objectPrototype queue (new_pipe w))
    as [(e1 & H1 & F1) _].
  simpl in H1.
  destruct (executePreBuild queue (new_pipe w)) as [[err|[]] s0].
  { rewrite Hrun. simpl in *. rewrite H1.
    rewrite <- (app_nil_r e1). by apply (phases_sorted e1 [] []). }
  simpl in H1.
  match type of Hrun with context [runTasks queue ?s1] =>
    pose proof (runTasks_grows now serializeId deserializeId generate
                 
                      envsBuildContext objectPrototype queue s1) as [(e2 & H2 & F2) _];
    destruct (runTasks queue s1) as [[err|outs] s2]
  end; simpl in H2.
  { rewrite Hrun. simpl. rewrite H2, H1, <- app_assoc.
    rewrite <- (app_nil_r (_ ++ e2)).
    apply (phases_sorted e1 (_ :: e2) []); [done| |done].
    by constructor. }
  cbv zeta in Hrun.
  match type of Hrun with context [executePostBuild queue ?l0 ?s3] =>
    pose proof (executePostBuild_frame callPostBuild
        envsBuildContext objectPrototype queue
                  l0 s3) as [(e3 & H3 & F3) _];
    destruct (executePostBuild queue l0 s3) as [[err|[]] s4]
  end; rewrite Hrun; simpl in *;
    (assert (trace s4 =
             e1 ++ (CreateLongProcessLogger "running tasks" (length queue)
                    :: e2 ++ [LongProcessEnd]) ++ e3) as ->
       by (rewrite H3, H2, H1; simpl; by rewrite <- !app_assoc));
    (apply phases_sorted; [done| |done]);
    (constructor; [done|]); (apply Forall_app; split; [done|]);
    by constructor.
Qed.

(** ** The first skip of a run *)

Lemma find_task_first (p : Task -> bool) (l : list Task) (t : Task) :
  find_task p l = Some t ->
  exists l1 l2, l = l1 ++ t :: l2 /\ Forall (fun x => p x = false) l1.
Proof.
  induction l as [|x l IH]; simpl; [done|].
  destruct (p x) eqn:Hp.
  - intros [= <-]. by exists [], l.
  - intros H. destruct (IH H) as (l1 & l2 & -> & Hall).
    exists (x :: l1), l2. split; [done|]. by constructor.
Qed.

(** X8.  The cascade as the code has it: a task whose last declared
    dependency matches a failed task is skipped, even with an
    unregistered environment, and the report cites the first failed task,
    in the order the failures occurred, that this dependency matches. *)
Theorem last_dependency_match_skips (task : Task) (env : EnvDefinition)
    (s : State) (deps : list string) (d : string) (cause : Task) :
  failedDependencyTask s = None ->
  dependencies task = Some (deps ++ [d]) ->
  find_task (matchesFailed (deserializeId d)) (failedTasks s) = Some cause ->
  executeTask task env s =
    (inr None,
     add_event (ConsoleWarningSkipped (env_id env) (taskIdOf task)
                  (taskIdOf cause))
       (afterScan task env s)) /\
  failedDependencyTask (snd (executeTask task env s)) = Some cause /\
  exists l1 l2,
    failedTasks s = l1 ++ cause :: l2 /\
    Forall (fun t => matchesFailed (deserializeId d) t = false) l1.
Proof.
  intros Hc Hd Hfind.
  assert (Hu : failedDependencyTask (updateFailedDependencyTask task s)
               = Some cause).
  { rewrite (update_records_last_dependency deserializeId task s deps d);
      try done. intros Hnil. by rewrite Hnil in Hfind. }
  pose proof (executeTask_skipped now serializeId deserializeId generate
                envsBuildContext objectPrototype task env s cause Hu) as Hskip.
  split; [exact Hskip|]. rewrite Hskip. simpl. split.
  - by rewrite (afterScan_cause serializeId deserializeId).
  - by apply find_task_first.
Qed.

(** X9.  No skip starts at a task that declares no dependency, nor
    before any task has failed: with no cause recorded such an entry is
    not skipped, and it leaves no cause recorded. *)
Theorem no_dependency_starts_no_skip (task : Task) (env : EnvDefinition)
    (s : State) :
  failedDependencyTask s = None ->
  failedTasks s = [] \/ dependencies task = None \/ dependencies task = Some [] ->
  fst (executeTask task env s) <> inr None /\
  failedDependencyTask (snd (executeTask task env s)) = None.
Proof.
  intros Hc Hcase.
  assert (Hu : updateFailedDependencyTask task s = s).
  { unfold updateFailedDependencyTask. rewrite Hc.
    destruct Hcase as [->|[->| ->]]; [done| |]; by destruct (failedTasks s). }
  pose proof (afterScan_cause serializeId deserializeId task env s) as Hscan.
  rewrite Hu, Hc in Hscan.
  destruct (executeTask task env s) as [out s'] eqn:E.
  apply executeTask_step in E. simpl.
  inversion E; subst; simpl; by rewrite ?Hscan in *.
Qed.

(** ** Edge cases and rejections *)

(** X10.  The run of an empty queue returns an empty results list; it
    makes six calls on the logger, the progress logger being created for
    zero steps, and leaves the fields and the world as they were,
    whatever the registry holds. *)
Theorem empty_queue_run (s : State) :
  execute [] s =
    (inr {| trl_tasksQueue := []; tasksResults := [] |},
     {| failedTasks := failedTasks s;
        failedDependencyTask := failedDependencyTask s;
        world := world s;
        trace :=
          trace s
          ++ [ SetStatusLine "executing pre-build for all tasks";
               ConsoleSuccess;
               CreateLongProcessLogger "running tasks" 0;
               LongProcessEnd;
               SetStatusLine "executing post-build for all tasks";
               ConsoleSuccess ] |}).
Proof.
  unfold execute, executePreBuild, executePostBuild, runTasks, bind, emit, ret,
    add_event.
  simpl. by rewrite <- !app_assoc.
Qed.

(** X11.  An [execute] hook that rejects is fatal and is no task
    failure: the main phase rejects with the hook's error at that entry,
    whatever entries follow; the task is not added to [failedTasks] and
    no failure is reported, the trace ending with the call of the hook. *)
Theorem rejected_execute_hook_aborts (pre post : list Entry) (task : Task)
    (env : EnvDefinition) (s : State) outs s1 ctx err w' :
  runTasks pre s = (inr outs, s1) ->
  failedDependencyTask (updateFailedDependencyTask task s1) = None ->
  envsBuildContext !! env_id env = Some ctx ->
  execute_hook task ctx (world s1) = (inl err, w') ->
  runTasks (pre ++ {| qe_env := env; qe_task := task |} :: post) s =
    (inl err, afterExecuteHook task env w' s1) /\
  failedTasks (afterExecuteHook task env w' s1) = failedTasks s1 /\
  trace (afterExecuteHook task env w' s1) =
    trace s1 ++ [ LogProgress (env_id env) (taskNameOf task);
                  CallExecute task (env_id env) ].
Proof.
  intros Hpre Hc Hctx Hx.
  apply (own_property envsBuildContext objectPrototype) in Hctx.
  pose proof (afterScan_fields serializeId deserializeId task env s1)
    as (Hf & _ & Ht).
  split; [|split; simpl; [done|by rewrite Ht, <- app_assoc]].
  rewrite runTasks_app, Hpre, runTasks_cons. simpl.
  rewrite <- (afterScan_cause serializeId deserializeId task env s1) in Hc.
  destruct (executeTask task env s1) as [out s2] eqn:E.
  apply executeTask_step in E.
  inversion E as [c Hc'|Hc' Hn|c e w0 Hc' Hn Hx'|c r0 w0 Hc' Hn Hx' Hr
                 |c r0 w0 Hc' Hn Hx' Hr]; subst; simplify_eq;
    rewrite Hx in Hx'; by simplify_eq.
Qed.

(** ** Pre-build comes first, in every run *)

Lemma no_late_phase_in_preBuild (evs : list Ev) (ev : Ev) :
  Forall preBuildEvent evs -> ev ∈ evs ->
  phase_of ev <> Some 1 /\ phase_of ev <> Some 2.
Proof.
  rewrite Forall_forall. intros H Hin. specialize (H _ Hin).
  by destruct ev.
Qed.

(** X12.  In every run of a fresh pipe, also one that throws: when an
    [execute] or a [postBuild] hook has been called, the pre-build phase
    is complete, that is, the [preBuild] hook of every entry that has
    one was called before, in queue order. *)
Theorem pre_build_completes_before_any_task (queue : list Entry) (w : W)
    (ev : Ev) :
  ev ∈ trace (snd (execute queue (new_pipe w))) ->
  phase_of ev = Some 1 \/ phase_of ev = Some 2 ->
  preBuildCalls queue
    `prefix_of` hookCalls (trace (snd (execute queue (new_pipe w)))).
Proof.
  pose proof (execute_phases queue (new_pipe w)) as Hrun.
  pose proof (executePreBuild_frame
      envsBuildContext objectPrototype queue (new_pipe w))
    as [(e1 & H1 & F1) _].
  pose proof (executePreBuild_calls queue (new_pipe w)) as Hcalls.
  destruct (executePreBuild queue (new_pipe w)) as [[err|[]] s0].
  { rewrite Hrun. simpl in *. rewrite H1. intros Hin Hph.
    destruct (no_late_phase_in_preBuild _ _ F1 Hin). by destruct Hph. }
  specialize (Hcalls s0 eq_refl). simpl in Hcalls.
  intros _ _.
  assert (Hext : exists evs,
            trace (snd (execute queue (new_pipe w))) = trace s0 ++ evs).
  { match type of Hrun with context [runTasks queue ?s1] =>
      pose proof (runTasks_grows now serializeId deserializeId generate
                   
                        envsBuildContext objectPrototype queue s1) as [(e2 & H2 & _) _];
      destruct (runTasks queue s1) as [[err|outs] s2]
    end; simpl in H2.
    { rewrite Hrun. simpl. rewrite H2, <- app_assoc. by eexists. }
    cbv zeta in Hrun.
    match type of Hrun with context [executePostBuild queue ?l0 ?s3] =>
      pose proof (executePostBuild_frame callPostBuild
          envsBuildContext objectPrototype queue
                    l0 s3) as [(e3 & H3 & _) _];
      destruct (executePostBuild queue l0 s3) as [[err|[]] s4]
    end; rewrite Hrun; simpl in *; rewrite H3, H2, <- !app_assoc;
      by eexists. }
  destruct Hext as [evs ->]. rewrite hookCalls_app, Hcalls.
  by apply prefix_app_r.
Qed.

End Lifecycle_properties.

(** * Properties of the components drawer *)

Section ComponentsDrawer_properties.

Context {Payload Rest Slot Components : Type}.
Variable isScopePayload : Payload -> bool.
Variable treeNodeSlot : Slot.

Abbreviation DNode := (@Node Payload).
Abbreviation DElement := (@Element Payload Rest Slot Components).
Abbreviation TreeNode := (@TreeNode Payload Rest Slot Components
                            isScopePayload treeNodeSlot).
Abbreviation mountNode := (@mountNode Payload Rest Slot Components
                             isScopePayload treeNodeSlot).
Abbreviation viewOf := (@viewOf Payload Rest Slot Components treeNodeSlot).
Abbreviation shownUnder := (shownUnder isScopePayload).

(** Induction on a tree, with the hypothesis for every child. *)
Lemma Node_forall_ind (P : DNode -> Prop) :
  (forall i p, P (mkNode i p None)) ->
  (forall i p cs, Forall P cs -> P (mkNode i p (Some cs))) ->
  forall n, P n.
Proof.
  intros Hleaf Hnode. fix IH 1. intros [i p [cs|]]; [|apply Hleaf].
  apply Hnode. induction cs as [|c cs IHcs]; constructor; [apply IH|exact IHcs].
Qed.

(** What is drawn for a node is one pass of React over what [TreeNode]
    returns for it. *)
Lemma mountNode_TreeNode (r : Rest) (n : DNode) :
  mountNode r n = mount isScopePayload treeNodeSlot
                    (TreeNode {| node := n; rest := r |}).
Proof.
  destruct n as [i p [cs|]]; unfold TreeNode; simpl; [|done].
  destruct (isScopePayload p); [|done]. simpl. by rewrite map_map.
Qed.

Lemma views_of_children (r : Rest) (cs : list DNode) (el : DElement) :
  el ∈ flat_map views (map (mountNode r) cs) <->
  exists c, c ∈ cs /\ el ∈ views (mountNode r c).
Proof.
  rewrite list_elem_of_In, in_flat_map. split.
  - intros (x & (c & <- & Hc)%in_map_iff & Hel).
    exists c. by rewrite !list_elem_of_In.
  - intros (c & Hc & Hel). exists (mountNode r c). split.
    + apply in_map_iff. exists c. by rewrite <- list_elem_of_In.
    + by apply list_elem_of_In.
Qed.

(** X13.  The views drawn for a tree are exactly the views of the nodes
    that have only scope nodes above them and are not themselves a scope
    node with children: a [ComponentView] for a node without children, a
    [NamespaceTreeNode] for another one, each with the props the root
    was drawn with.  A scope node that has children gets no view. *)
Theorem views_are_the_nodes_under_scopes (r : Rest) (n : DNode)
    (el : DElement) :
  el ∈ views (mountNode r n) <->
  exists m, shownUnder n m /\ el = viewOf r m.
Proof.
  revert el. induction n as [i p|i p cs IH] using Node_forall_ind; intros el.
  - simpl. rewrite list_elem_of_singleton. split.
    + intros ->. eexists. split; [by apply shown_leaf|done].
    + intros (m & Hm & ->). by inversion Hm; subst.
  - simpl. destruct (isScopePayload p) eqn:Hp; simpl.
    + rewrite views_of_children. rewrite Forall_forall in IH. split.
      * intros (c & Hc & Hel). apply (IH c Hc) in Hel as (m & Hm & ->).
        exists m. split; [|done]. by eapply shown_below.
      * intros (m & Hm & ->).
        inversion Hm as [Hn|cs' Hn Hs|cs' c m' Hn Hs Hc Hm']; subst;
          simpl in *; [done|congruence|].
        injection Hn as <-. exists c. split; [done|].
        apply (IH c Hc). by exists m.
    + rewrite list_elem_of_singleton. split.
      * intros ->. eexists. split; [by eapply shown_namespace|done].
      * intros (m & Hm & ->).
        inversion Hm as [Hn|cs' Hn Hs|cs' c m' Hn Hs Hc Hm']; subst;
          simpl in *; [done|done|congruence].
Qed.

End ComponentsDrawer_properties.

(** * The further properties on the concrete pipeline *)

Section OnDemoMore.

Import Demo DemoMore.
Local Open Scope list_scope.

Lemma hooks_called_in_lifecycle_order_witness :
  exists l s',
    execute queueClean (new_pipe 0) = (inr l, s') /\
    hookCalls (trace s') =
      [ CallPreBuild taskC "env1"; CallExecute taskC "env1";
        CallExecute taskT "env1"; CallPostBuild taskC "env1" ].
Proof.
  eexists _, _. split; [vm_compute; reflexivity|].
  exact (hooks_called_in_lifecycle_order Demo.now serializeId deserializeId
           generate callPostBuild
             envs objectPrototype queueClean (new_pipe 0) _ _ eq_refl).
Defined.

Lemma results_for_a_prefix_skips_for_the_rest_witness :
  exists l s',
    execute queueCascade (new_pipe 0) = (inr l, s') /\
    map entry_of (tasksResults l) = [entry taskA env1] /\
    skipReports (trace s') = [("env1", "B"); ("env1", "tester")]%string.
Proof.
  eexists _, _. split; [vm_compute; reflexivity|].
  pose proof (results_for_a_prefix_skips_for_the_rest Demo.now serializeId
                deserializeId generate callPostBuild
                  envs objectPrototype queueCascade
                (new_pipe 0) _ _ eq_refl) as [H1 H2].
  split; [exact H1|exact H2].
Defined.

Lemma failed_tasks_are_the_results_without_artifacts_witness :
  exists l s',
    execute queueMixed (new_pipe 0) = (inr l, s') /\
    failedTasks s' = [taskA].
Proof.
  eexists _, _. split; [vm_compute; reflexivity|].
  exact (failed_tasks_are_the_results_without_artifacts Demo.now serializeId
           deserializeId generate callPostBuild envs objectPrototype queueMixed
           (new_pipe 0) _ _ eq_refl).
Defined.

Lemma cause_is_a_failed_task_cited_by_every_skip_witness :
  causeInvariant serializeId (new_pipe 0 : State) /\
  causeInvariant serializeId (snd (execute queueCascade (new_pipe 0))).
Proof.
  assert (H0 : causeInvariant serializeId (new_pipe 0 : State))
    by reflexivity.
  split; [exact H0|].
  exact (cause_is_a_failed_task_cited_by_every_skip Demo.now serializeId
           deserializeId generate callPostBuild
             envs objectPrototype queueCascade
           (new_pipe 0) H0).
Defined.

Lemma last_dependency_match_skips_witness :
  failedDependencyTask afterA = None /\
  dependencies taskB = Some ([] ++ ["A"%string]) /\
  find_task (matchesFailed (deserializeId "A")) (failedTasks afterA)
    = Some taskA /\
  fst (executeTask taskB envMissing afterA) = inr None /\
  failedDependencyTask (snd (executeTask taskB envMissing afterA))
    = Some taskA.
Proof.
  split; [reflexivity|]. split; [reflexivity|]. split; [reflexivity|].
  destruct (last_dependency_match_skips Demo.now serializeId deserializeId
              generate
                envs objectPrototype taskB envMissing afterA [] "A"%string taskA
              eq_refl eq_refl eq_refl) as (H1 & H2 & _).
  split; [exact (f_equal fst H1)|exact H2].
Defined.

Lemma no_dependency_starts_no_skip_witness :
  failedDependencyTask afterA = None /\
  dependencies taskT = None /\
  fst (executeTask taskT env1 afterA) <> inr None /\
  failedDependencyTask (snd (executeTask taskT env1 afterA)) = None.
Proof.
  split; [reflexivity|]. split; [reflexivity|].
  exact (no_dependency_starts_no_skip Demo.now serializeId deserializeId
           generate
             envs objectPrototype taskT env1 afterA eq_refl (or_intror (or_introl eq_refl))).
Defined.

Lemma rejected_execute_hook_aborts_witness :
  fst (runTasks queueRejecting (new_pipe 0)) = inl (Error "boom") /\
  failedTasks (snd (runTasks queueRejecting (new_pipe 0))) = [].
Proof.
  edestruct (rejected_execute_hook_aborts Demo.now serializeId deserializeId
               generate
                 envs objectPrototype [entry taskC env1] [entry taskT env1] taskR env1
               (new_pipe 0)) as (H1 & H2 & _);
    [vm_compute; reflexivity|reflexivity|reflexivity|reflexivity|].
  split; [exact (f_equal fst H1)|].
  exact (eq_trans (f_equal (fun x => failedTasks (snd x)) H1) H2).
Defined.

Lemma pre_build_completes_before_any_task_witness :
  CallExecute taskC "env1"
    ∈ trace (snd (execute queueRejecting (new_pipe 0))) /\
  [CallPreBuild taskC "env1"]
    `prefix_of` hookCalls (trace (snd (execute queueRejecting (new_pipe 0)))).
Proof.
  assert (Hin : CallExecute taskC "env1"
                  ∈ trace (snd (execute queueRejecting (new_pipe 0)))).
  { apply list_elem_of_In. vm_compute. auto 10. }
  split; [exact Hin|].
  exact (pre_build_completes_before_any_task Demo.now serializeId
           deserializeId generate callPostBuild
             envs objectPrototype queueRejecting 0
           (CallExecute taskC "env1") Hin (or_introl eq_refl)).
Defined.

End OnDemoMore.
